(** * Fragmentation and reassembly of frames over datagrams (src/net/packet.cc)

    A shallow embedding of [PacketUtils], [Packet], [FragmentedFrame] and
    [AckPacket], followed by the properties stated about them.

    Conventions of the embedding.
    - Fixed-width unsigned integers are [Z] with the wrap-around written out
      where the code computes on them ([uint16], [uint32], [size_t]).
    - [std::string] and [std::vector<uint8_t>] are [list byte].
    - A C++ exception is a [Throw]; an [assert] that fails is
      [Throw assertion_failed]; indexing a vector out of range or calling
      [back()] on an empty vector is [Throw undefined_behaviour].
    - A member function that mutates its object takes the object and returns
      the outcome together with the object as it is left (also when it
      throws).
    - The splitting loop of the outgoing constructor takes fuel: [None] means
      the loop was still running when the fuel ran out. *)

From Stdlib Require Import ZArith List Lia Bool Permutation.
From coqutil Require Import Byte Datatypes.List Word.LittleEndianList.
Import ListNotations.
Local Open Scope Z_scope.

(** ** Exceptions and results *)

(** One constructor per [throw] site of packet.cc, plus the bounds check of
    [Chunk], failed assertions and undefined behaviour. *)
Inductive error : Type :=
| invalid_packet_fragment_no        (* Packet(Chunk): fragment_no_ >= fragments_in_this_frame *)
| invalid_packet_empty_payload      (* Packet(Chunk): empty payload *)
| connection_id_mismatch            (* sanity_check *)
| fragments_in_this_frame_mismatch  (* sanity_check *)
| frame_no_mismatch                 (* sanity_check *)
| fragment_no_out_of_range          (* sanity_check: fragment_no >= fragments_in_this_frame *)
| send_unfinished                   (* send: attempt to send unfinished FragmentedFrame *)
| frame_unfinished                  (* frame: attempt to build frame from unfinished FragmentedFrame *)
| chunk_out_of_range                (* Chunk: read past the end of the buffer *)
| assertion_failed
| undefined_behaviour.

(** The error kinds of the specification (section 7); failed assertions and
    undefined behaviour belong to none of them. *)
Inductive error_kind : Type :=
| MalformedPacket
| ProtocolMismatch
| IncompleteFrame
| ProgramAbort.

Definition kind_of (e : error) : error_kind :=
  match e with
  | invalid_packet_fragment_no | invalid_packet_empty_payload
  | chunk_out_of_range => MalformedPacket
  | connection_id_mismatch | fragments_in_this_frame_mismatch
  | frame_no_mismatch | fragment_no_out_of_range => ProtocolMismatch
  | send_unfinished | frame_unfinished => IncompleteFrame
  | assertion_failed | undefined_behaviour => ProgramAbort
  end.

Inductive result (A : Type) : Type :=
| Ok (a : A)
| Throw (e : error).
Arguments Ok {A} a.
Arguments Throw {A} e.

Definition bind {A B : Type} (m : result A) (k : A -> result B) : result B :=
  match m with
  | Ok a => k a
  | Throw e => Throw e
  end.

Notation "x <- m ;; k" := (bind m (fun x => k))
  (at level 61, m at next level, right associativity).
Notation "m ;;; k" := (bind m (fun _ => k))
  (at level 61, right associativity).

(** [assert( c )] *)
Definition assert (c : bool) : result unit :=
  if c then Ok tt else Throw assertion_failed.

(** [if ( c ) throw runtime_error( e )] *)
Definition throw_if (c : bool) (e : error) : result unit :=
  if c then Throw e else Ok tt.

(** Traversal of a vector by a function that may throw, left to right. *)
Fixpoint mapM {A B : Type} (f : A -> result B) (l : list A) : result (list B) :=
  match l with
  | [] => Ok []
  | a :: l' => b <- f a ;; bs <- mapM f l' ;; Ok (b :: bs)
  end.

(** ** Machine integers *)

Definition uint16 (z : Z) : Z := z mod 2 ^ 16.
Definition uint32 (z : Z) : Z := z mod 2 ^ 32.
Definition size_t (z : Z) : Z := z mod 2 ^ 64.

Definition is_uint16 (z : Z) : Prop := 0 <= z < 2 ^ 16.
Definition is_uint32 (z : Z) : Prop := 0 <= z < 2 ^ 32.

(** ** PacketUtils *)

Module PacketUtils.

(** [put_header_field( const uint16_t n )]: [htole16] and the two bytes of the
    result in memory order, that is least significant byte first. *)
Definition put_header_field16 (n : Z) : list byte := le_split 2 n.

(** [put_header_field( const uint32_t n )] *)
Definition put_header_field32 (n : Z) : list byte := le_split 4 n.

End PacketUtils.

(** ** Chunk *)

Module Chunk.

(** Modelled from the spec: the class [Chunk] (chunk.hh) is not among the
    sources. Section 4.1 describes it as a bounds-checked read-only view of
    the received buffer with little-endian reads and sub-views: every
    accessor validates [offset + width <= length] and fails otherwise. *)
Definition t : Type := list byte.

Definition size (str : t) : Z := Z.of_nat (length str).

(** [str( offset, length )] *)
Definition sub (str : t) (offset len : Z) : result t :=
  if offset + len <=? size str
  then Ok (firstn (Z.to_nat len) (skipn (Z.to_nat offset) str))
  else Throw chunk_out_of_range.

(** [str( offset )]: the rest of the buffer from [offset] on. *)
Definition rest (str : t) (offset : Z) : result t :=
  if offset <=? size str
  then Ok (skipn (Z.to_nat offset) str)
  else Throw chunk_out_of_range.

(** [le16()] and [le32()] of a view of that many bytes. *)
Definition le16 (c : t) : result Z :=
  if 2 <=? size c then Ok (le_combine (firstn 2 c)) else Throw chunk_out_of_range.

Definition le32 (c : t) : result Z :=
  if 4 <=? size c then Ok (le_combine (firstn 4 c)) else Throw chunk_out_of_range.

Definition to_string (c : t) : list byte := c.

End Chunk.

(** ** Packet *)

Module Packet.

(** The data members of [Packet]. Modelled from the spec: packet.hh is not
    among the sources; the widths are those of section 3 and of the wire
    format of section 6 (16, 32, 16, 16 and 32 bits). *)
Record t : Type := mk {
  valid_ : bool;
  connection_id_ : Z;
  frame_no_ : Z;
  fragment_no_ : Z;
  fragments_in_this_frame_ : Z;
  time_to_next_ : Z;
  payload_ : list byte
}.

(** The C++ types of the members. *)
Definition well_typed (p : t) : Prop :=
  is_uint16 (connection_id_ p) /\ is_uint32 (frame_no_ p) /\
  is_uint16 (fragment_no_ p) /\ is_uint16 (fragments_in_this_frame_ p) /\
  is_uint32 (time_to_next_ p).

(** [Packet::Packet( whole_frame, connection_id, frame_no, fragment_no,
    time_to_next, next_fragment_start )]: the constructed packet and the value
    written to [next_fragment_start]. [MAXIMUM_PAYLOAD] is a constant of
    packet.hh, taken as a parameter. *)
Definition outgoing (MAXIMUM_PAYLOAD : Z) (whole_frame : list byte)
    (connection_id frame_no fragment_no time_to_next : Z) : result (t * Z) :=
  let whole_frame_size := Z.of_nat (length whole_frame) in
  assert (negb (whole_frame_size =? 0)) ;;;
  let first_byte := size_t (MAXIMUM_PAYLOAD * fragment_no) in
  assert (first_byte <? whole_frame_size) ;;;
  let length := Z.min (whole_frame_size - first_byte) MAXIMUM_PAYLOAD in
  assert (size_t (first_byte + length) <=? whole_frame_size) ;;;
  Ok ({| valid_ := true;
         connection_id_ := connection_id;
         frame_no_ := frame_no;
         fragment_no_ := fragment_no;
         fragments_in_this_frame_ := 0;
         time_to_next_ := time_to_next;
         payload_ := firstn (Z.to_nat length) (skipn (Z.to_nat first_byte) whole_frame) |},
      size_t (first_byte + length)).

(** [Packet::Packet( const Chunk & str )]: the member initialisers run in the
    order of the members, then the two checks of the body. *)
Definition incoming (str : Chunk.t) : result t :=
  connection_id <- (c <- Chunk.sub str 0 2 ;; Chunk.le16 c) ;;
  frame_no <- (c <- Chunk.sub str 2 4 ;; Chunk.le32 c) ;;
  fragment_no <- (c <- Chunk.sub str 6 2 ;; Chunk.le16 c) ;;
  fragments_in_this_frame <- (c <- Chunk.sub str 8 2 ;; Chunk.le16 c) ;;
  time_to_next <- (c <- Chunk.sub str 10 4 ;; Chunk.le32 c) ;;
  payload <- (c <- Chunk.rest str 14 ;; Ok (Chunk.to_string c)) ;;
  throw_if (fragments_in_this_frame <=? fragment_no) invalid_packet_fragment_no ;;;
  throw_if (Z.of_nat (length payload) =? 0) invalid_packet_empty_payload ;;;
  Ok {| valid_ := true;
        connection_id_ := connection_id;
        frame_no_ := frame_no;
        fragment_no_ := fragment_no;
        fragments_in_this_frame_ := fragments_in_this_frame;
        time_to_next_ := time_to_next;
        payload_ := payload |}.

(** [Packet::Packet()]: an empty, invalid packet. *)
Definition empty : t :=
  {| valid_ := false;
     connection_id_ := 0;
     frame_no_ := 0;
     fragment_no_ := 0;
     fragments_in_this_frame_ := 0;
     time_to_next_ := 0;
     payload_ := [] |}.

(** [Packet::to_string] *)
Definition to_string (p : t) : result (list byte) :=
  assert (0 <? fragments_in_this_frame_ p) ;;;
  Ok (PacketUtils.put_header_field16 (connection_id_ p)
      ++ PacketUtils.put_header_field32 (frame_no_ p)
      ++ PacketUtils.put_header_field16 (fragment_no_ p)
      ++ PacketUtils.put_header_field16 (fragments_in_this_frame_ p)
      ++ PacketUtils.put_header_field32 (time_to_next_ p)
      ++ payload_ p).

(** [Packet::set_fragments_in_this_frame]: the member is written, then the
    assertion is checked. *)
Definition set_fragments_in_this_frame (x : Z) (p : t) : result t :=
  let p' := {| valid_ := valid_ p;
               connection_id_ := connection_id_ p;
               frame_no_ := frame_no_ p;
               fragment_no_ := fragment_no_ p;
               fragments_in_this_frame_ := x;
               time_to_next_ := time_to_next_ p;
               payload_ := payload_ p |} in
  assert (fragment_no_ p' <? fragments_in_this_frame_ p') ;;;
  Ok p'.

(** [Packet::set_time_to_next] (packet.hh). *)
Definition set_time_to_next (x : Z) (p : t) : t :=
  {| valid_ := valid_ p;
     connection_id_ := connection_id_ p;
     frame_no_ := frame_no_ p;
     fragment_no_ := fragment_no_ p;
     fragments_in_this_frame_ := fragments_in_this_frame_ p;
     time_to_next_ := x;
     payload_ := payload_ p |}.

End Packet.

(** ** Member functions that mutate state

    A computation on a state [S] that may throw; the state it leaves is
    returned also when it throws. *)

Definition M (S A : Type) : Type := S -> result A * S.

Definition ret {S A : Type} (a : A) : M S A := fun s => (Ok a, s).

Definition bindM {S A B : Type} (m : M S A) (k : A -> M S B) : M S B :=
  fun s =>
    match m s with
    | (Ok a, s') => k a s'
    | (Throw e, s') => (Throw e, s')
    end.

(** A call that reads the state and may throw, but does not write. *)
Definition read {S A : Type} (f : S -> result A) : M S A := fun s => (f s, s).

Definition modify {S : Type} (f : S -> S) : M S unit := fun s => (Ok tt, f s).

Notation "x <~ m ;; k" := (bindM m (fun x => k))
  (at level 61, m at next level, right associativity).
Notation "m >>> k" := (bindM m (fun _ => k))
  (at level 61, right associativity).

(** ** UDPSocket *)

(** The socket is outside the program under study; of its state only the
    datagrams handed to [send], oldest first, are kept. *)
Definition UDPSocket : Type := list (list byte).

Definition socket_send (payload : list byte) : M UDPSocket unit :=
  modify (fun socket => socket ++ [payload]).

(** ** FragmentedFrame *)

Module FragmentedFrame.

(** The data members of [FragmentedFrame]. Modelled from the spec: packet.hh
    is not among the sources; [remaining_fragments_] is an unsigned counter,
    taken 32 bits wide (no reachable frame decrements it at zero). *)
Record t : Type := mk {
  connection_id_ : Z;
  frame_no_ : Z;
  fragments_in_this_frame_ : Z;
  fragments_ : list Packet.t;
  remaining_fragments_ : Z
}.

(** The loop of the outgoing constructor,
    [for ( uint16_t fragment_no = 0; next_fragment_start < whole_frame.size(); fragment_no++ )]. *)
Fixpoint split_loop (MAXIMUM_PAYLOAD : Z) (fuel : nat) (whole_frame : list byte)
    (connection_id frame_no : Z) (fragment_no next_fragment_start : Z)
    (fragments : list Packet.t) : option (result (list Packet.t)) :=
  match fuel with
  | O => None
  | S fuel' =>
    if next_fragment_start <? Z.of_nat (length whole_frame) then
      match Packet.outgoing MAXIMUM_PAYLOAD whole_frame connection_id frame_no fragment_no 0 with
      | Throw e => Some (Throw e)
      | Ok (packet, next_fragment_start') =>
        split_loop MAXIMUM_PAYLOAD fuel' whole_frame connection_id frame_no
          (uint16 (fragment_no + 1)) next_fragment_start' (fragments ++ [packet])
      end
    else Some (Ok fragments)
  end.

(** [fragments_.back().set_time_to_next( x )]; [back()] of an empty vector is
    undefined. *)
Definition set_time_to_next_of_back (x : Z) (fragments : list Packet.t)
    : result (list Packet.t) :=
  match rev fragments with
  | [] => Throw undefined_behaviour
  | last :: front => Ok (rev front ++ [Packet.set_time_to_next x last])
  end.

(** [FragmentedFrame::FragmentedFrame( connection_id, frame_no,
    time_to_next_frame, whole_frame )]: construct an outgoing frame. *)
Definition outgoing (MAXIMUM_PAYLOAD : Z) (fuel : nat)
    (connection_id frame_no time_to_next_frame : Z) (whole_frame : list byte)
    : option (result t) :=
  match split_loop MAXIMUM_PAYLOAD fuel whole_frame connection_id frame_no 0 0 [] with
  | None => None
  | Some r =>
    Some (fragments <- r ;;
          fragments <- set_time_to_next_of_back time_to_next_frame fragments ;;
          let fragments_in_this_frame := uint16 (Z.of_nat (length fragments)) in
          fragments <- mapM (Packet.set_fragments_in_this_frame fragments_in_this_frame)
                            fragments ;;
          Ok {| connection_id_ := connection_id;
                frame_no_ := frame_no;
                fragments_in_this_frame_ := fragments_in_this_frame;
                fragments_ := fragments;
                remaining_fragments_ := 0 |})
  end.

(** [FragmentedFrame::sanity_check] *)
Definition sanity_check (ff : t) (packet : Packet.t) : result unit :=
  throw_if (negb (Packet.connection_id_ packet =? connection_id_ ff))
           connection_id_mismatch ;;;
  throw_if (negb (Packet.fragments_in_this_frame_ packet =? fragments_in_this_frame_ ff))
           fragments_in_this_frame_mismatch ;;;
  throw_if (negb (Packet.frame_no_ packet =? frame_no_ ff))
           frame_no_mismatch ;;;
  throw_if (fragments_in_this_frame_ ff <=? Packet.fragment_no_ packet)
           fragment_no_out_of_range.

(** [fragments_[ i ]], read. *)
Definition slot (i : Z) (ff : t) : result Packet.t :=
  match nth_error (fragments_ ff) (Z.to_nat i) with
  | Some p => Ok p
  | None => Throw undefined_behaviour
  end.

(** [remaining_fragments_--] *)
Definition decrement_remaining (ff : t) : t :=
  {| connection_id_ := connection_id_ ff;
     frame_no_ := frame_no_ ff;
     fragments_in_this_frame_ := fragments_in_this_frame_ ff;
     fragments_ := fragments_ ff;
     remaining_fragments_ := uint32 (remaining_fragments_ ff - 1) |}.

(** [fragments_[ i ] = packet] *)
Definition assign_slot (i : Z) (packet : Packet.t) (ff : t) : t :=
  {| connection_id_ := connection_id_ ff;
     frame_no_ := frame_no_ ff;
     fragments_in_this_frame_ := fragments_in_this_frame_ ff;
     fragments_ := replace_nth (Z.to_nat i) (fragments_ ff) packet;
     remaining_fragments_ := remaining_fragments_ ff |}.

(** [FragmentedFrame::add_packet] *)
Definition add_packet (packet : Packet.t) : M t unit :=
  read (fun ff => sanity_check ff packet) >>>
  target <~ read (slot (Packet.fragment_no_ packet)) ;;
  if negb (Packet.valid_ target) then
    modify decrement_remaining >>>
    modify (assign_slot (Packet.fragment_no_ packet) packet)
  else ret tt.

(** [FragmentedFrame::FragmentedFrame( connection_id, packet )]: construct an
    incoming frame from its first packet. A constructor that throws leaves no
    object. *)
Definition incoming (connection_id : Z) (packet : Packet.t) : result t :=
  let n := Packet.fragments_in_this_frame_ packet in
  let ff := {| connection_id_ := connection_id;
               frame_no_ := Packet.frame_no_ packet;
               fragments_in_this_frame_ := n;
               fragments_ := repeat Packet.empty (Z.to_nat n);
               remaining_fragments_ := n |} in
  match (read (fun ff => sanity_check ff packet) >>> add_packet packet) ff with
  | (Ok _, ff') => Ok ff'
  | (Throw e, _) => Throw e
  end.

(** [FragmentedFrame::send] *)
Fixpoint send_loop (fragments : list Packet.t) : M UDPSocket unit :=
  match fragments with
  | [] => ret tt
  | packet :: fragments' =>
    datagram <~ read (fun _ => Packet.to_string packet) ;;
    socket_send datagram >>>
    send_loop fragments'
  end.

Definition send (ff : t) : M UDPSocket unit :=
  read (fun _ => throw_if (negb (Z.of_nat (length (fragments_ ff)) =? fragments_in_this_frame_ ff))
                          send_unfinished) >>>
  send_loop (fragments_ ff).

(** [FragmentedFrame::complete] *)
Definition complete (ff : t) : bool := remaining_fragments_ ff =? 0.

(** [FragmentedFrame::frame] *)
Definition frame (ff : t) : result (list byte) :=
  throw_if (negb (complete ff)) frame_unfinished ;;;
  Ok (fold_left (fun ret fragment => ret ++ Packet.payload_ fragment) (fragments_ ff) []).

(** [FragmentedFrame::partial_frame]: the loop stops at the first invalid
    fragment. *)
Fixpoint partial_frame_loop (fragments : list Packet.t) (ret : list byte) : list byte :=
  match fragments with
  | [] => ret
  | fragment :: fragments' =>
    if negb (Packet.valid_ fragment) then ret
    else partial_frame_loop fragments' (ret ++ Packet.payload_ fragment)
  end.

Definition partial_frame (ff : t) : list byte :=
  partial_frame_loop (fragments_ ff) [].

End FragmentedFrame.

(** ** AckPacket *)

Module AckPacket.

Record t : Type := mk {
  connection_id_ : Z;
  frame_no_ : Z;
  fragment_no_ : Z;
  avg_delay_ : Z
}.

Definition well_typed (a : t) : Prop :=
  is_uint16 (connection_id_ a) /\ is_uint32 (frame_no_ a) /\
  is_uint16 (fragment_no_ a) /\ is_uint32 (avg_delay_ a).

(** [AckPacket::AckPacket( const Chunk & str )] *)
Definition incoming (str : Chunk.t) : result t :=
  connection_id <- (c <- Chunk.sub str 0 2 ;; Chunk.le16 c) ;;
  frame_no <- (c <- Chunk.sub str 2 4 ;; Chunk.le32 c) ;;
  fragment_no <- (c <- Chunk.sub str 6 2 ;; Chunk.le16 c) ;;
  avg_delay <- (c <- Chunk.sub str 8 4 ;; Chunk.le32 c) ;;
  Ok {| connection_id_ := connection_id;
        frame_no_ := frame_no;
        fragment_no_ := fragment_no;
        avg_delay_ := avg_delay |}.

(** [AckPacket::to_string] *)
Definition to_string (a : t) : list byte :=
  PacketUtils.put_header_field16 (connection_id_ a)
  ++ PacketUtils.put_header_field32 (frame_no_ a)
  ++ PacketUtils.put_header_field16 (fragment_no_ a)
  ++ PacketUtils.put_header_field32 (avg_delay_ a).

End AckPacket.

(** ** Notions used to state the properties *)

(** The number of invalid slots of a fragments array. *)
Definition count_invalid (fragments : list Packet.t) : Z :=
  Z.of_nat (length (filter (fun p => negb (Packet.valid_ p)) fragments)).

(** The payloads of a run of slots, concatenated in slot order. *)
Definition payloads (fragments : list Packet.t) : list byte :=
  concat (map Packet.payload_ fragments).

(** [add_packet] for each packet of a list, in the order of the list; the
    first exception ends it. *)
Fixpoint add_packets (packets : list Packet.t) : M FragmentedFrame.t unit :=
  match packets with
  | [] => ret tt
  | packet :: packets' => FragmentedFrame.add_packet packet >>> add_packets packets'
  end.

(** A receiver: the first packet to arrive founds the incoming frame, the
    others are added to it. *)
Definition receive (connection_id : Z) (first : Packet.t) (others : list Packet.t)
    : result FragmentedFrame.t :=
  ff <- FragmentedFrame.incoming connection_id first ;;
  match add_packets others ff with
  | (Ok _, ff') => Ok ff'
  | (Throw e, _) => Throw e
  end.

(** A fragment: a packet that holds data, with members in the range of their
    types. Both packet constructors that take data build such packets; the
    default constructor builds the empty slot, which is not one. *)
Definition is_fragment (p : Packet.t) : Prop :=
  Packet.valid_ p = true /\ Packet.well_typed p.

(** The frames a program can build: by one of the two constructors, then by
    any number of calls of [add_packet] (whether they throw or not). *)
Inductive reachable (MAXIMUM_PAYLOAD : Z) : FragmentedFrame.t -> Prop :=
| reachable_outgoing fuel connection_id frame_no time_to_next_frame whole_frame ff :
    FragmentedFrame.outgoing MAXIMUM_PAYLOAD fuel connection_id frame_no
      time_to_next_frame whole_frame = Some (Ok ff) ->
    reachable MAXIMUM_PAYLOAD ff
| reachable_incoming connection_id packet ff :
    is_fragment packet ->
    FragmentedFrame.incoming connection_id packet = Ok ff ->
    reachable MAXIMUM_PAYLOAD ff
| reachable_add_packet packet ff :
    reachable MAXIMUM_PAYLOAD ff ->
    is_fragment packet ->
    reachable MAXIMUM_PAYLOAD (snd (FragmentedFrame.add_packet packet ff)).

(** The four ways a call of [add_packet] can go. *)
Variant add_packet_spec (p : Packet.t) (ff : FragmentedFrame.t)
  : result unit * FragmentedFrame.t -> Prop :=
| add_rejected e :
    FragmentedFrame.sanity_check ff p = Throw e ->
    add_packet_spec p ff (Throw e, ff)
| add_no_slot :
    FragmentedFrame.sanity_check ff p = Ok tt ->
    nth_error (FragmentedFrame.fragments_ ff) (Z.to_nat (Packet.fragment_no_ p)) = None ->
    add_packet_spec p ff (Throw undefined_behaviour, ff)
| add_duplicate target :
    FragmentedFrame.sanity_check ff p = Ok tt ->
    nth_error (FragmentedFrame.fragments_ ff) (Z.to_nat (Packet.fragment_no_ p)) = Some target ->
    Packet.valid_ target = true ->
    add_packet_spec p ff (Ok tt, ff)
| add_stored target :
    FragmentedFrame.sanity_check ff p = Ok tt ->
    nth_error (FragmentedFrame.fragments_ ff) (Z.to_nat (Packet.fragment_no_ p)) = Some target ->
    Packet.valid_ target = false ->
    add_packet_spec p ff
      (Ok tt, FragmentedFrame.assign_slot (Packet.fragment_no_ p) p
                (FragmentedFrame.decrement_remaining ff)).

(** [ceil( a / b )] for [0 < b]. *)
Definition ceil_div (a b : Z) : Z := (a + b - 1) / b.

(** The [width] bytes at [offset] of a buffer, read little-endian. *)
Definition le_at (offset width : nat) (str : list byte) : Z :=
  le_combine (firstn width (skipn offset str)).

(** The round trip of splitting and reassembly, for one frame [whole_frame]
    and one payload cap: the outgoing constructor returns a frame, and its
    fragments, received in any order, give a complete incoming frame whose
    [frame()] is [whole_frame]. *)
Definition split_reassemble_round_trip (MAXIMUM_PAYLOAD connection_id frame_no
    time_to_next_frame : Z) (whole_frame : list byte) : Prop :=
  exists fuel0 out,
    (forall fuel, (fuel0 <= fuel)%nat ->
       FragmentedFrame.outgoing MAXIMUM_PAYLOAD fuel connection_id frame_no
         time_to_next_frame whole_frame = Some (Ok out)) /\
    forall first others,
      Permutation (first :: others) (FragmentedFrame.fragments_ out) ->
      exists ff,
        receive connection_id first others = Ok ff /\
        FragmentedFrame.complete ff = true /\
        FragmentedFrame.frame ff = Ok whole_frame.

(** The number and sizes of the fragments of one frame: the outgoing
    constructor returns a frame of [ceil( size / MAXIMUM_PAYLOAD )] fragments,
    the last one carries what the others leave, and no payload is empty. *)
Definition fragment_count_law (MAXIMUM_PAYLOAD connection_id frame_no
    time_to_next_frame : Z) (whole_frame : list byte) : Prop :=
  exists fuel0 out,
    (forall fuel, (fuel0 <= fuel)%nat ->
       FragmentedFrame.outgoing MAXIMUM_PAYLOAD fuel connection_id frame_no
         time_to_next_frame whole_frame = Some (Ok out)) /\
    let count := Z.of_nat (length (FragmentedFrame.fragments_ out)) in
    let size := Z.of_nat (length whole_frame) in
    count = ceil_div size MAXIMUM_PAYLOAD /\
    Z.of_nat (length (Packet.payload_ (last (FragmentedFrame.fragments_ out) Packet.empty)))
      = size - (count - 1) * MAXIMUM_PAYLOAD /\
    Forall (fun p => Packet.payload_ p <> []) (FragmentedFrame.fragments_ out).

(** The fragment [k] of [n] that the outgoing constructor builds. *)
Definition fragment_of (MAXIMUM_PAYLOAD connection_id frame_no time_to_next_frame : Z)
    (whole_frame : list byte) (n k : nat) : Packet.t :=
  let size := Z.of_nat (length whole_frame) in
  let first_byte := MAXIMUM_PAYLOAD * Z.of_nat k in
  {| Packet.valid_ := true;
     Packet.connection_id_ := connection_id;
     Packet.frame_no_ := frame_no;
     Packet.fragment_no_ := Z.of_nat k;
     Packet.fragments_in_this_frame_ := Z.of_nat n;
     Packet.time_to_next_ := if (S k =? n)%nat then time_to_next_frame else 0;
     Packet.payload_ :=
       firstn (Z.to_nat (Z.min (size - first_byte) MAXIMUM_PAYLOAD))
              (skipn (Z.to_nat first_byte) whole_frame) |}.

(** What claim C6 says of [send] for one frame and one socket: unless the
    frame holds [fragments_in_this_frame_] valid fragments, [send] fails with
    an incomplete-frame error. *)
Definition send_requires_valid_fragments (ff : FragmentedFrame.t) (socket : UDPSocket)
    : Prop :=
  Z.of_nat (length (filter Packet.valid_ (FragmentedFrame.fragments_ ff)))
    <> FragmentedFrame.fragments_in_this_frame_ ff ->
  exists e, fst (FragmentedFrame.send ff socket) = Throw e /\ kind_of e = IncompleteFrame.

(** What holds of every frame a program can build: the slots are as many as
    the frame declares, [remaining_fragments_] counts the invalid ones, and a
    valid slot holds the fragment of its own index and of the frame's
    identity. *)
Definition frame_inv (ff : FragmentedFrame.t) : Prop :=
  Z.of_nat (length (FragmentedFrame.fragments_ ff)) = FragmentedFrame.fragments_in_this_frame_ ff /\
  FragmentedFrame.fragments_in_this_frame_ ff < 2 ^ 16 /\
  FragmentedFrame.remaining_fragments_ ff = count_invalid (FragmentedFrame.fragments_ ff) /\
  forall i p,
    nth_error (FragmentedFrame.fragments_ ff) i = Some p ->
    Packet.valid_ p = true ->
    Packet.fragment_no_ p = Z.of_nat i /\
    Packet.fragments_in_this_frame_ p = FragmentedFrame.fragments_in_this_frame_ ff /\
    Packet.connection_id_ p = FragmentedFrame.connection_id_ ff /\
    Packet.frame_no_ p = FragmentedFrame.frame_no_ ff.

(** The members of a packet that neither setter writes. *)
Definition header_of (p : Packet.t) : bool * Z * Z * Z :=
  (Packet.valid_ p, Packet.connection_id_ p, Packet.frame_no_ p, Packet.fragment_no_ p).

(** The packet that the bytes of a buffer spell out: the five header fields
    little-endian at offsets 0, 2, 6, 8 and 10, the payload from offset 14. *)
Definition parsed (str : list byte) : Packet.t :=
  {| Packet.valid_ := true;
     Packet.connection_id_ := le_at 0 2 str;
     Packet.frame_no_ := le_at 2 4 str;
     Packet.fragment_no_ := le_at 6 2 str;
     Packet.fragments_in_this_frame_ := le_at 8 2 str;
     Packet.time_to_next_ := le_at 10 4 str;
     Packet.payload_ := skipn 14 str |}.

(** A buffer fails to parse as a malformed packet. *)
Definition malformed (str : list byte) : Prop :=
  exists e, Packet.incoming str = Throw e /\ kind_of e = MalformedPacket.

(** ** A small frame, used to instantiate the properties

    Ten bytes split with a payload cap of four: three fragments of 4, 4 and 2
    bytes, of connection 7 and frame 9. *)

Definition example_buffer : list byte :=
  [Byte.x01; Byte.x02; Byte.x03; Byte.x04; Byte.x05;
   Byte.x06; Byte.x07; Byte.x08; Byte.x09; Byte.x0a].

Definition example_fragment (k : nat) : Packet.t :=
  fragment_of 4 7 9 55 example_buffer 3 k.

(** The incoming frame after fragments 2 and 0 have arrived. *)
Definition example_incoming : FragmentedFrame.t :=
  {| FragmentedFrame.connection_id_ := 7;
     FragmentedFrame.frame_no_ := 9;
     FragmentedFrame.fragments_in_this_frame_ := 3;
     FragmentedFrame.fragments_ := [example_fragment 0; Packet.empty; example_fragment 2];
     FragmentedFrame.remaining_fragments_ := 1 |}.

(** A packet of another connection, and one that claims slot 0 with other
    bytes. *)
Definition example_stranger : Packet.t :=
  {| Packet.valid_ := true; Packet.connection_id_ := 8; Packet.frame_no_ := 9;
     Packet.fragment_no_ := 1; Packet.fragments_in_this_frame_ := 3;
     Packet.time_to_next_ := 0; Packet.payload_ := [Byte.x05] |}.

Definition example_conflicting : Packet.t :=
  {| Packet.valid_ := true; Packet.connection_id_ := 7; Packet.frame_no_ := 9;
     Packet.fragment_no_ := 0; Packet.fragments_in_this_frame_ := 3;
     Packet.time_to_next_ := 0; Packet.payload_ := [Byte.xff; Byte.xfe] |}.

Definition example_ack : AckPacket.t :=
  {| AckPacket.connection_id_ := 7; AckPacket.frame_no_ := 70000;
     AckPacket.fragment_no_ := 2; AckPacket.avg_delay_ := 123456 |}.

(** ** Further notions and examples *)

(** Whether a fragment numbered [k] is among a list of arrived packets. *)
Definition arrived (arrivals : list Packet.t) (k : nat) : bool :=
  existsb (fun p => Packet.fragment_no_ p =? Z.of_nat k) arrivals.

(** The bytes the datagram of a packet carries after the 14 bytes of the
    header. *)
Definition datagram_payload (datagram : list byte) : list byte := skipn 14 datagram.

(** The outgoing frame of the example buffer. *)
Definition example_outgoing : FragmentedFrame.t :=
  {| FragmentedFrame.connection_id_ := 7;
     FragmentedFrame.frame_no_ := 9;
     FragmentedFrame.fragments_in_this_frame_ := 3;
     FragmentedFrame.fragments_ :=
       [example_fragment 0; example_fragment 1; example_fragment 2];
     FragmentedFrame.remaining_fragments_ := 0 |}.

(** A default-constructed packet after [set_fragments_in_this_frame( 2 )]:
    not valid, all other members zero. *)
Definition example_unpopulated : Packet.t :=
  {| Packet.valid_ := false; Packet.connection_id_ := 0; Packet.frame_no_ := 0;
     Packet.fragment_no_ := 0; Packet.fragments_in_this_frame_ := 2;
     Packet.time_to_next_ := 0; Packet.payload_ := [] |}.

(** Fragment 1 of 2 of frame 0 of connection 0, and the incoming frame it
    founds. *)
Definition example_second_of_two : Packet.t :=
  {| Packet.valid_ := true; Packet.connection_id_ := 0; Packet.frame_no_ := 0;
     Packet.fragment_no_ := 1; Packet.fragments_in_this_frame_ := 2;
     Packet.time_to_next_ := 0; Packet.payload_ := [Byte.x2a] |}.

Definition example_founded : FragmentedFrame.t :=
  {| FragmentedFrame.connection_id_ := 0;
     FragmentedFrame.frame_no_ := 0;
     FragmentedFrame.fragments_in_this_frame_ := 2;
     FragmentedFrame.fragments_ := [Packet.empty; example_second_of_two];
     FragmentedFrame.remaining_fragments_ := 1 |}.

(** * Properties *)

(** ** The slots of a frame *)

Lemma nth_error_replace_nth_same {A} (l : list A) i x :
  (i < length l)%nat -> nth_error (replace_nth i l x) i = Some x.
Proof.
  revert i. induction l as [|a l IH]; intros [|i] H; simpl in *; try lia.
  - reflexivity.
  - apply IH. lia.
Qed.

Lemma nth_error_replace_nth_other {A} (l : list A) i j x :
  i <> j -> nth_error (replace_nth i l x) j = nth_error l j.
Proof.
  revert i j. induction l as [|a l IH]; intros [|i] [|j] H; simpl; try reflexivity.
  - contradiction.
  - apply IH. congruence.
Qed.

Lemma slot_ok_iff i ff p :
  FragmentedFrame.slot i ff = Ok p <->
  nth_error (FragmentedFrame.fragments_ ff) (Z.to_nat i) = Some p.
Proof.
  unfold FragmentedFrame.slot.
  destruct (nth_error _ _); split; congruence.
Qed.

(** ** sanity_check *)

(** What a packet that passes the check has in common with the frame. *)
Lemma sanity_check_ok ff p :
  FragmentedFrame.sanity_check ff p = Ok tt <->
  Packet.connection_id_ p = FragmentedFrame.connection_id_ ff /\
  Packet.fragments_in_this_frame_ p = FragmentedFrame.fragments_in_this_frame_ ff /\
  Packet.frame_no_ p = FragmentedFrame.frame_no_ ff /\
  Packet.fragment_no_ p < FragmentedFrame.fragments_in_this_frame_ ff.
Proof.
  unfold FragmentedFrame.sanity_check, throw_if, bind.
  destruct (Z.eqb_spec (Packet.connection_id_ p) (FragmentedFrame.connection_id_ ff));
  destruct (Z.eqb_spec (Packet.fragments_in_this_frame_ p)
                       (FragmentedFrame.fragments_in_this_frame_ ff));
  destruct (Z.eqb_spec (Packet.frame_no_ p) (FragmentedFrame.frame_no_ ff));
  destruct (Z.leb_spec (FragmentedFrame.fragments_in_this_frame_ ff) (Packet.fragment_no_ p));
  simpl; split; try congruence; intuition (try congruence; try lia).
Qed.

(** Every exception of the check is a protocol mismatch. *)
Lemma sanity_check_throws ff p e :
  FragmentedFrame.sanity_check ff p = Throw e -> kind_of e = ProtocolMismatch.
Proof.
  unfold FragmentedFrame.sanity_check, throw_if, bind.
  repeat match goal with
         | |- context [if ?c then _ else _] => destruct c; simpl
         end;
    intros H; inversion H; reflexivity.
Qed.


(** ** add_packet *)

Lemma add_packetP p ff : add_packet_spec p ff (FragmentedFrame.add_packet p ff).
Proof.
  unfold FragmentedFrame.add_packet, bindM, read, FragmentedFrame.slot.
  destruct (FragmentedFrame.sanity_check ff p) as [[]|e] eqn:Hs.
  2:{ now constructor. }
  destruct (nth_error _ _) as [target|] eqn:Hn.
  2:{ now apply add_no_slot. }
  destruct (Packet.valid_ target) eqn:Hv; simpl.
  - now apply add_duplicate with target.
  - now apply add_stored with target.
Qed.

(** (C4) Mismatch rejection: adding a packet whose connection_id, frame_no or
    fragments_in_this_frame differs from the frame's throws a protocol
    mismatch, and the frame is left exactly as it was (its slots and its
    remaining_fragments included). *)
Theorem add_packet_mismatch_rejected (ff : FragmentedFrame.t) (p : Packet.t)
    (Hmismatch :
       Packet.connection_id_ p <> FragmentedFrame.connection_id_ ff \/
       Packet.frame_no_ p <> FragmentedFrame.frame_no_ ff \/
       Packet.fragments_in_this_frame_ p <> FragmentedFrame.fragments_in_this_frame_ ff) :
  exists e,
    FragmentedFrame.add_packet p ff = (Throw e, ff) /\ kind_of e = ProtocolMismatch.
Proof.
  destruct (add_packetP p ff) as [e Hs | Hs _ | target Hs _ _ | target Hs _ _].
  - exists e. split; [reflexivity | exact (sanity_check_throws _ _ _ Hs)].
  - apply sanity_check_ok in Hs. exfalso. intuition congruence.
  - apply sanity_check_ok in Hs. exfalso. intuition congruence.
  - apply sanity_check_ok in Hs. exfalso. intuition congruence.
Qed.



(** (C10) First write wins: a packet that passes the sanity check and whose
    slot already holds a valid fragment is dropped without an exception, and
    the frame (the stored payload included) is left as it was, whatever the
    payload of the packet. *)
Theorem add_packet_first_write_wins (ff : FragmentedFrame.t) (p stored : Packet.t)
    (Hcheck : FragmentedFrame.sanity_check ff p = Ok tt)
    (Hslot : FragmentedFrame.slot (Packet.fragment_no_ p) ff = Ok stored)
    (Hstored : Packet.valid_ stored = true) :
  FragmentedFrame.add_packet p ff = (Ok tt, ff) /\
  FragmentedFrame.slot (Packet.fragment_no_ p) (snd (FragmentedFrame.add_packet p ff))
    = Ok stored.
Proof.
  apply slot_ok_iff in Hslot.
  assert (H : FragmentedFrame.add_packet p ff = (Ok tt, ff)).
  { destruct (add_packetP p ff) as [e Hs | Hs Hn | target Hs Hn Ht | target Hs Hn Ht];
      try congruence. }
  split; [exact H |].
  rewrite H. simpl. now apply slot_ok_iff.
Qed.

(** ** frame and partial_frame *)

Lemma frame_fold fragments ret :
  fold_left (fun ret fragment => ret ++ Packet.payload_ fragment) fragments ret
  = ret ++ payloads fragments.
Proof.
  revert ret. induction fragments as [|f fragments IH]; intros ret; simpl.
  - now rewrite app_nil_r.
  - rewrite IH. unfold payloads. simpl. now rewrite app_assoc.
Qed.

Lemma frame_complete ff :
  FragmentedFrame.complete ff = true ->
  FragmentedFrame.frame ff = Ok (payloads (FragmentedFrame.fragments_ ff)).
Proof.
  intros H. unfold FragmentedFrame.frame. rewrite H. simpl.
  now rewrite frame_fold.
Qed.

Lemma partial_frame_loop_prefix fragments : forall (k : nat) ret,
  Forall (fun p => Packet.valid_ p = true) (firstn k fragments) ->
  (forall p, nth_error fragments k = Some p -> Packet.valid_ p = false) ->
  FragmentedFrame.partial_frame_loop fragments ret = ret ++ payloads (firstn k fragments).
Proof.
  induction fragments as [|f fragments IH]; intros k ret Hprefix Hgap.
  - rewrite firstn_nil. simpl. now rewrite app_nil_r.
  - destruct k as [|k]; simpl.
    + rewrite (Hgap f eq_refl). simpl. now rewrite app_nil_r.
    + simpl in Hprefix. inversion Hprefix as [|? ? Hf Hrest]; subst.
      rewrite Hf. simpl.
      rewrite (IH k (ret ++ Packet.payload_ f) Hrest Hgap).
      unfold payloads. simpl. now rewrite app_assoc.
Qed.

(** (C3) Partial-prefix law: when the slots before [k] are valid and slot [k]
    (if there is one) is invalid, whatever the slots after it hold,
    [partial_frame()] is the concatenation of the payloads of slots
    [0 .. k-1]; in particular it is empty when slot 0 is invalid. *)
Theorem partial_frame_prefix (ff : FragmentedFrame.t) (k : nat)
    (Hprefix : Forall (fun p => Packet.valid_ p = true)
                      (firstn k (FragmentedFrame.fragments_ ff)))
    (Hgap : forall p, nth_error (FragmentedFrame.fragments_ ff) k = Some p ->
                      Packet.valid_ p = false) :
  FragmentedFrame.partial_frame ff = payloads (firstn k (FragmentedFrame.fragments_ ff)) /\
  (k = 0%nat -> FragmentedFrame.partial_frame ff = []).
Proof.
  assert (H : FragmentedFrame.partial_frame ff
              = payloads (firstn k (FragmentedFrame.fragments_ ff))).
  { unfold FragmentedFrame.partial_frame.
    now rewrite (partial_frame_loop_prefix _ k [] Hprefix Hgap). }
  split; [exact H |].
  intros ->. rewrite H. reflexivity.
Qed.

(** ** send *)

Lemma send_loop_ok fragments : forall datagrams socket,
  mapM Packet.to_string fragments = Ok datagrams ->
  FragmentedFrame.send_loop fragments socket = (Ok tt, socket ++ datagrams).
Proof.
  induction fragments as [|p fragments IH]; intros datagrams socket H; simpl in *.
  - inversion H. unfold ret. now rewrite app_nil_r.
  - unfold bindM, read, socket_send, modify.
    destruct (Packet.to_string p) as [d|e]; simpl in H; [| discriminate].
    destruct (mapM Packet.to_string fragments) as [ds|e]; simpl in H; [| discriminate].
    inversion H; subst.
    rewrite (IH ds (socket ++ [d]) eq_refl).
    now rewrite <- app_assoc.
Qed.


Lemma to_string_total fragments :
  Forall (fun p => 0 < Packet.fragments_in_this_frame_ p) fragments ->
  exists datagrams,
    mapM Packet.to_string fragments = Ok datagrams /\
    length datagrams = length fragments.
Proof.
  induction 1 as [|p fragments Hp _ [ds [IH Hlen]]]; simpl.
  - now exists [].
  - unfold Packet.to_string at 1, assert.
    apply Z.ltb_lt in Hp. rewrite Hp. simpl. rewrite IH. simpl.
    eexists. split; [reflexivity |]. simpl. now rewrite Hlen.
Qed.


Lemma send_guard_passed ff socket :
  Z.of_nat (length (FragmentedFrame.fragments_ ff)) = FragmentedFrame.fragments_in_this_frame_ ff ->
  FragmentedFrame.send ff socket
  = FragmentedFrame.send_loop (FragmentedFrame.fragments_ ff) socket.
Proof.
  intros H. unfold FragmentedFrame.send, bindM, read.
  apply Z.eqb_eq in H. rewrite H. reflexivity.
Qed.

(** ** Counting invalid slots *)

Lemma count_invalid_range fragments :
  0 <= count_invalid fragments <= Z.of_nat (length fragments).
Proof.
  unfold count_invalid.
  pose proof (filter_length_le (fun p => negb (Packet.valid_ p)) fragments). lia.
Qed.

Lemma count_invalid_all_valid fragments :
  Forall (fun p => Packet.valid_ p = true) fragments -> count_invalid fragments = 0.
Proof.
  unfold count_invalid.
  induction 1 as [|p fragments Hp _ IH]; simpl; [reflexivity |].
  now rewrite Hp.
Qed.

Lemma count_invalid_zero fragments :
  count_invalid fragments = 0 -> Forall (fun p => Packet.valid_ p = true) fragments.
Proof.
  unfold count_invalid.
  induction fragments as [|p fragments IH]; simpl; intros H; constructor;
    destruct (Packet.valid_ p); simpl in H; try reflexivity; try discriminate; auto.
Qed.

Lemma count_invalid_repeat_empty n :
  count_invalid (repeat Packet.empty n) = Z.of_nat n.
Proof.
  unfold count_invalid. induction n as [|n IH]; simpl; [reflexivity | lia].
Qed.

Lemma count_invalid_replace_nth fragments : forall i old p,
  nth_error fragments i = Some old ->
  Packet.valid_ old = false ->
  Packet.valid_ p = true ->
  count_invalid (replace_nth i fragments p) = count_invalid fragments - 1.
Proof.
  intros i old p Hn Hold Hp. unfold count_invalid.
  enough (H : length (filter (fun q => negb (Packet.valid_ q)) fragments)
              = S (length (filter (fun q => negb (Packet.valid_ q))
                                  (replace_nth i fragments p)))) by lia.
  revert i Hn.
  induction fragments as [|f fragments IH]; intros [|i] Hn; simpl in Hn;
    try discriminate.
  - inversion Hn; subst. simpl. now rewrite Hold, Hp.
  - specialize (IH i Hn). simpl.
    destruct (Packet.valid_ f); simpl; lia.
Qed.

(** ** The invariant of the frames a program can build *)

(** *** The outgoing constructor *)

Lemma packet_outgoing_header C B cid fno f ttn p next :
  Packet.outgoing C B cid fno f ttn = Ok (p, next) ->
  header_of p = (true, cid, fno, f).
Proof.
  unfold Packet.outgoing, assert, bind.
  repeat match goal with
         | |- context [if ?c then _ else _] => destruct c
         end; intros H; inversion H; reflexivity.
Qed.

Lemma uint16_succ f j : uint16 (uint16 (f + 1) + Z.of_nat j) = uint16 (f + Z.of_nat (S j)).
Proof.
  unfold uint16. rewrite Zplus_mod_idemp_l. f_equal. lia.
Qed.

(** The loop numbers the packets it appends from [fragment_no] on, modulo
    [2^16]. *)
Lemma split_loop_headers C B cid fno : forall fuel f next acc r,
  f = uint16 f ->
  FragmentedFrame.split_loop C fuel B cid fno f next acc = Some (Ok r) ->
  exists new,
    r = acc ++ new /\
    map header_of new
    = map (fun j => (true, cid, fno, uint16 (f + Z.of_nat j))) (seq 0 (length new)).
Proof.
  induction fuel as [|fuel IH]; intros f next acc r Hf H; simpl in H; [discriminate |].
  destruct (next <? Z.of_nat (length B)).
  2:{ inversion H; subst. exists []. split; [now rewrite app_nil_r | reflexivity]. }
  destruct (Packet.outgoing C B cid fno f 0) as [[p next']|e] eqn:Hp; [| discriminate].
  apply packet_outgoing_header in Hp.
  apply IH in H.
  2:{ unfold uint16. now rewrite Z.mod_mod by lia. }
  destruct H as [new [-> Hnew]].
  exists (p :: new). split; [now rewrite <- app_assoc |].
  simpl. rewrite Z.add_0_r, <- Hf, Hp. f_equal.
  rewrite Hnew, <- seq_shift, map_map.
  apply map_ext. intros j. now rewrite uint16_succ.
Qed.

Lemma set_time_to_next_header x p :
  header_of (Packet.set_time_to_next x p) = header_of p.
Proof. reflexivity. Qed.

Lemma set_time_to_next_of_back_headers x fragments r :
  FragmentedFrame.set_time_to_next_of_back x fragments = Ok r ->
  map header_of r = map header_of fragments /\ fragments <> [].
Proof.
  unfold FragmentedFrame.set_time_to_next_of_back.
  destruct (rev fragments) as [|last front] eqn:Hrev; [discriminate |].
  intros H. inversion H; subst.
  apply (f_equal (@rev _)) in Hrev. rewrite rev_involutive in Hrev. simpl in Hrev.
  subst fragments. split.
  - now rewrite !map_app.
  - intros Hnil. now destruct (rev front).
Qed.

Lemma set_fragments_in_this_frame_headers x : forall fragments r,
  mapM (Packet.set_fragments_in_this_frame x) fragments = Ok r ->
  map header_of r = map header_of fragments /\
  Forall (fun p => Packet.fragments_in_this_frame_ p = x /\ Packet.fragment_no_ p < x) r.
Proof.
  induction fragments as [|p fragments IH]; intros r H; simpl in H.
  - inversion H. split; [reflexivity | constructor].
  - unfold Packet.set_fragments_in_this_frame at 1, assert in H. simpl in H.
    destruct (Z.ltb_spec (Packet.fragment_no_ p) x) as [Hlt|]; simpl in H; [| discriminate].
    destruct (mapM _ fragments) as [r'|e]; simpl in H; [| discriminate].
    inversion H; subst. destruct (IH r' eq_refl) as [Hh Hall].
    split.
    + simpl. now rewrite Hh.
    + constructor; [split; [reflexivity | exact Hlt] | exact Hall].
Qed.

Lemma nth_error_map_seq {A} (g : nat -> A) (n i : nat) :
  nth_error (map g (seq 0 n)) i = if (i <? n)%nat then Some (g i) else None.
Proof.
  rewrite nth_error_map, nth_error_seq.
  destruct (i <? n)%nat; reflexivity.
Qed.

Lemma nth_error_header fragments i p :
  nth_error fragments i = Some p ->
  nth_error (map header_of fragments) i = Some (header_of p).
Proof. intros H. now rewrite nth_error_map, H. Qed.

(** A frame the outgoing constructor returns: at most [2^16 - 1] fragments,
    all valid, numbered from 0 in slot order, none remaining. *)
Lemma outgoing_inv C fuel cid fno ttn B ff :
  FragmentedFrame.outgoing C fuel cid fno ttn B = Some (Ok ff) ->
  frame_inv ff /\
  Forall (fun p => Packet.valid_ p = true) (FragmentedFrame.fragments_ ff) /\
  FragmentedFrame.remaining_fragments_ ff = 0 /\
  0 < FragmentedFrame.fragments_in_this_frame_ ff.
Proof.
  unfold FragmentedFrame.outgoing.
  destruct (FragmentedFrame.split_loop C fuel B cid fno 0 0 []) as [[r0|e]|] eqn:Hloop;
    try discriminate.
  simpl.
  destruct (FragmentedFrame.set_time_to_next_of_back ttn r0) as [r1|e] eqn:Hback;
    try discriminate.
  simpl.
  destruct (mapM _ r1) as [r2|e] eqn:Hset; try discriminate.
  simpl. intros H. inversion H; subst ff; clear H. simpl.
  apply split_loop_headers in Hloop; [| reflexivity].
  destruct Hloop as [new [Hr0 Hh0]]. simpl in Hr0. subst new.
  apply set_time_to_next_of_back_headers in Hback. destruct Hback as [Hh1 Hne].
  apply set_fragments_in_this_frame_headers in Hset. destruct Hset as [Hh2 Hall].
  assert (Hlen : length r2 = length r0).
  { rewrite <- (length_map header_of r2), Hh2, Hh1. apply length_map. }
  assert (Hlen1 : length r1 = length r0).
  { rewrite <- (length_map header_of r1), Hh1. apply length_map. }
  assert (Hnth : forall i p, nth_error r2 i = Some p ->
             (i < length r0)%nat /\
             header_of p = (true, cid, fno, uint16 (Z.of_nat i)) /\
             Packet.fragments_in_this_frame_ p = uint16 (Z.of_nat (length r1)) /\
             Packet.fragment_no_ p < uint16 (Z.of_nat (length r1))).
  { intros i p Hi.
    assert (Hi' := nth_error_header _ _ _ Hi).
    rewrite Hh2, Hh1, Hh0, nth_error_map_seq in Hi'.
    destruct (Nat.ltb_spec i (length r0)) as [Hlt|]; [| discriminate].
    change (0 + Z.of_nat i) with (Z.of_nat i) in Hi'.
    split; [exact Hlt |]. split; [congruence |].
    rewrite Forall_forall in Hall. apply Hall. eapply nth_error_In; eassumption. }
  assert (Hbound : Z.of_nat (length r0) < 2 ^ 16).
  { destruct (Z.ltb_spec (Z.of_nat (length r0)) (2 ^ 16)) as [|Hge]; [assumption | exfalso].
    destruct (nth_error r2 (Z.to_nat 65535)) as [p|] eqn:Hp.
    - destruct (Hnth _ _ Hp) as [_ [Hhdr [_ Hlt]]].
      assert (Hno : Packet.fragment_no_ p = uint16 (Z.of_nat (Z.to_nat 65535)))
        by (unfold header_of in Hhdr; congruence).
      rewrite Hno, Z2Nat.id in Hlt by lia. unfold uint16 in Hlt.
      pose proof (Z.mod_pos_bound (Z.of_nat (length r1)) (2 ^ 16) ltac:(lia)).
      change (65535 mod 2 ^ 16) with 65535 in Hlt. lia.
    - apply nth_error_None in Hp. lia. }
  assert (Hpos : (0 < length r0)%nat).
  { destruct r0; [congruence | simpl; lia]. }
  assert (Hfits : uint16 (Z.of_nat (length r1)) = Z.of_nat (length r0)).
  { rewrite Hlen1. unfold uint16. apply Z.mod_small. lia. }
  assert (Hvalid : Forall (fun p => Packet.valid_ p = true) r2).
  { apply Forall_forall. intros p Hin. apply In_nth_error in Hin. destruct Hin as [i Hi].
    destruct (Hnth _ _ Hi) as [_ [Hhdr _]]. unfold header_of in Hhdr. congruence. }
  split; [| split; [exact Hvalid | split; [reflexivity | simpl; rewrite Hfits; lia]]].
  unfold frame_inv. simpl.
  split; [rewrite Hlen; symmetry; exact Hfits |].
  split; [rewrite Hfits; exact Hbound |].
  split; [symmetry; now apply count_invalid_all_valid |].
  intros i p Hi _.
  destruct (Hnth _ _ Hi) as [Hlt [Hhdr [Hf _]]].
  unfold header_of in Hhdr.
  assert (Hno : Packet.fragment_no_ p = uint16 (Z.of_nat i)) by congruence.
  split; [rewrite Hno; unfold uint16; apply Z.mod_small; lia |].
  split; [exact Hf |].
  split; congruence.
Qed.

(** *** add_packet and the incoming constructor *)

Lemma add_packet_inv p ff :
  frame_inv ff -> Packet.valid_ p = true -> 0 <= Packet.fragment_no_ p ->
  frame_inv (snd (FragmentedFrame.add_packet p ff)).
Proof.
  intros Hinv Hvalid Hno0.
  destruct (add_packetP p ff) as [e Hs | Hs Hn | target Hs Hn Ht | target Hs Hn Ht];
    try exact Hinv.
  destruct Hinv as [Hlen [Hfits [Hrem Hslots]]].
  apply sanity_check_ok in Hs. destruct Hs as [Hcid [Hn' [Hfno Hlt]]].
  pose proof (count_invalid_replace_nth _ _ _ p Hn Ht Hvalid) as Hcount.
  pose proof (count_invalid_range
                (replace_nth (Z.to_nat (Packet.fragment_no_ p))
                             (FragmentedFrame.fragments_ ff) p)) as Hrange.
  pose proof (count_invalid_range (FragmentedFrame.fragments_ ff)) as Hrange'.
  unfold frame_inv. simpl.
  split; [now rewrite replace_nth_length |].
  split; [exact Hfits |].
  split.
  - rewrite Hcount, Hrem. unfold uint32. apply Z.mod_small. lia.
  - intros i q Hi Hq.
    destruct (Nat.eq_dec (Z.to_nat (Packet.fragment_no_ p)) i) as [<- | Hne].
    + rewrite nth_error_replace_nth_same in Hi by (apply nth_error_Some; congruence).
      inversion Hi; subst q. rewrite Z2Nat.id by lia. auto.
    + rewrite nth_error_replace_nth_other in Hi by exact Hne.
      now apply Hslots.
Qed.

Lemma incoming_eq cid p ff :
  FragmentedFrame.incoming cid p = Ok ff ->
  let n := Packet.fragments_in_this_frame_ p in
  let ff0 := {| FragmentedFrame.connection_id_ := cid;
                FragmentedFrame.frame_no_ := Packet.frame_no_ p;
                FragmentedFrame.fragments_in_this_frame_ := n;
                FragmentedFrame.fragments_ := repeat Packet.empty (Z.to_nat n);
                FragmentedFrame.remaining_fragments_ := n |} in
  FragmentedFrame.sanity_check ff0 p = Ok tt /\
  FragmentedFrame.add_packet p ff0 = (Ok tt, ff).
Proof.
  unfold FragmentedFrame.incoming, bindM at 1, read at 1. cbv zeta.
  destruct (FragmentedFrame.sanity_check _ p) as [[]|e]; [| discriminate].
  destruct (FragmentedFrame.add_packet p _) as [[[]|e] ff']; [| discriminate].
  intros H. inversion H. split; reflexivity.
Qed.

Lemma incoming_inv cid p ff :
  Packet.valid_ p = true -> 0 <= Packet.fragment_no_ p ->
  0 <= Packet.fragments_in_this_frame_ p < 2 ^ 16 ->
  FragmentedFrame.incoming cid p = Ok ff -> frame_inv ff.
Proof.
  intros Hvalid Hno [Hn0 Hn] H. apply incoming_eq in H. destruct H as [_ H].
  change ff with (snd (Ok tt, ff)). rewrite <- H.
  apply add_packet_inv; [| exact Hvalid | exact Hno].
  unfold frame_inv. simpl.
  split; [rewrite repeat_length; lia |].
  split; [exact Hn |].
  split; [rewrite count_invalid_repeat_empty; lia |].
  intros i q Hi Hq. apply nth_error_In, repeat_spec in Hi. subst q. discriminate.
Qed.

Lemma reachable_inv C ff : reachable C ff -> frame_inv ff.
Proof.
  induction 1 as [fuel cid fno ttn B ff H | cid p ff Hp H | p ff _ IH Hp].
  - now apply outgoing_inv in H.
  - destruct Hp as [Hvalid [_ [_ [[Hno _] [Hn _]]]]].
    now apply incoming_inv in H.
  - destruct Hp as [Hvalid [_ [_ [[Hno _] _]]]].
    now apply add_packet_inv.
Qed.


(** ** frame and send before the frame is finished *)



(** (C6) [send] on an unfinished frame. The incoming frame founded by
    fragment 1 of 2 holds one valid fragment of two: [complete()] is false
    and [frame()] refuses it with its incomplete-frame error. [send] does not:
    its guard compares the number of slots, which the incoming constructor
    has already set to [fragments_in_this_frame_], so the guard passes and
    [send] stops at the failed assertion of [to_string] on the empty slot 0,
    with no incomplete-frame error. *)
Theorem send_guard_ignores_validity :
  FragmentedFrame.incoming 7
    {| Packet.valid_ := true; Packet.connection_id_ := 7; Packet.frame_no_ := 0;
       Packet.fragment_no_ := 1; Packet.fragments_in_this_frame_ := 2;
       Packet.time_to_next_ := 0; Packet.payload_ := [Byte.x2a] |}
  = Ok {| FragmentedFrame.connection_id_ := 7;
          FragmentedFrame.frame_no_ := 0;
          FragmentedFrame.fragments_in_this_frame_ := 2;
          FragmentedFrame.fragments_ :=
            [Packet.empty;
             {| Packet.valid_ := true; Packet.connection_id_ := 7; Packet.frame_no_ := 0;
                Packet.fragment_no_ := 1; Packet.fragments_in_this_frame_ := 2;
                Packet.time_to_next_ := 0; Packet.payload_ := [Byte.x2a] |}];
          FragmentedFrame.remaining_fragments_ := 1 |} /\
  let ff :=
    {| FragmentedFrame.connection_id_ := 7;
       FragmentedFrame.frame_no_ := 0;
       FragmentedFrame.fragments_in_this_frame_ := 2;
       FragmentedFrame.fragments_ :=
         [Packet.empty;
          {| Packet.valid_ := true; Packet.connection_id_ := 7; Packet.frame_no_ := 0;
             Packet.fragment_no_ := 1; Packet.fragments_in_this_frame_ := 2;
             Packet.time_to_next_ := 0; Packet.payload_ := [Byte.x2a] |}];
       FragmentedFrame.remaining_fragments_ := 1 |} in
  FragmentedFrame.complete ff = false /\
  FragmentedFrame.frame ff = Throw frame_unfinished /\
  kind_of frame_unfinished = IncompleteFrame /\
  FragmentedFrame.send ff [] = (Throw assertion_failed, []) /\
  kind_of assertion_failed <> IncompleteFrame /\
  ~ send_requires_valid_fragments ff [].
Proof.
  split; [reflexivity |]. intros ff.
  assert (Hsend : FragmentedFrame.send ff [] = (Throw assertion_failed, []))
    by (vm_compute; reflexivity).
  split; [reflexivity |]. split; [reflexivity |]. split; [reflexivity |].
  split; [exact Hsend |]. split; [discriminate |].
  unfold send_requires_valid_fragments. intros H.
  destruct H as [e [He Hkind]].
  - simpl. lia.
  - rewrite Hsend in He. simpl in He. inversion He; subst e. discriminate Hkind.
Qed.

(** ** The wire format *)

Section Reading.

Variable str : list byte.

Lemma read_le16 (offset : Z) :
  0 <= offset ->
  (c <- Chunk.sub str offset 2 ;; Chunk.le16 c)
  = if offset + 2 <=? Chunk.size str
    then Ok (le_at (Z.to_nat offset) 2 str) else Throw chunk_out_of_range.
Proof.
  intros Hoffset. unfold Chunk.sub, Chunk.size.
  destruct (Z.leb_spec (offset + 2) (Z.of_nat (length str))) as [Hle|];
    unfold bind; [| reflexivity].
  unfold Chunk.le16, Chunk.size.
  change (Z.to_nat 2) with 2%nat.
  rewrite length_firstn, length_skipn, firstn_firstn.
  replace (Z.of_nat (Nat.min 2 (length str - Z.to_nat offset))) with 2 by lia.
  reflexivity.
Qed.

Lemma read_le32 (offset : Z) :
  0 <= offset ->
  (c <- Chunk.sub str offset 4 ;; Chunk.le32 c)
  = if offset + 4 <=? Chunk.size str
    then Ok (le_at (Z.to_nat offset) 4 str) else Throw chunk_out_of_range.
Proof.
  intros Hoffset. unfold Chunk.sub, Chunk.size.
  destruct (Z.leb_spec (offset + 4) (Z.of_nat (length str))) as [Hle|];
    unfold bind; [| reflexivity].
  unfold Chunk.le32, Chunk.size.
  change (Z.to_nat 4) with 4%nat.
  rewrite length_firstn, length_skipn, firstn_firstn.
  replace (Z.of_nat (Nat.min 4 (length str - Z.to_nat offset))) with 4 by lia.
  reflexivity.
Qed.

(** A buffer shorter than the header is rejected by a bounds check. *)
Lemma incoming_short :
  (length str < 14)%nat -> Packet.incoming str = Throw chunk_out_of_range.
Proof.
  intros Hlen. unfold Packet.incoming.
  rewrite !read_le16, !read_le32 by lia. unfold Chunk.size.
  repeat match goal with
         | |- context [?a <=? ?b] => destruct (Z.leb_spec a b); simpl; try reflexivity
         end.
  all: lia.
Qed.

(** With the header present, the outcome is decided by the two checks of the
    constructor's body. *)
Lemma incoming_long :
  (14 <= length str)%nat ->
  Packet.incoming str =
  if le_at 8 2 str <=? le_at 6 2 str then Throw invalid_packet_fragment_no
  else if Z.of_nat (length (skipn 14 str)) =? 0 then Throw invalid_packet_empty_payload
  else Ok (parsed str).
Proof.
  intros Hlen. unfold Packet.incoming.
  rewrite !read_le16, !read_le32 by lia.
  unfold Chunk.rest, Chunk.size, Chunk.to_string.
  repeat match goal with
         | |- context [?a + ?w <=? Z.of_nat (length str)] =>
           destruct (Z.leb_spec (a + w) (Z.of_nat (length str))); [| lia]
         end.
  destruct (Z.leb_spec 14 (Z.of_nat (length str))); [| lia].
  change (Z.to_nat 14) with 14%nat. change (Z.to_nat 10) with 10%nat.
  change (Z.to_nat 8) with 8%nat. change (Z.to_nat 6) with 6%nat.
  change (Z.to_nat 2) with 2%nat. change (Z.to_nat 0) with 0%nat.
  cbn [bind]. unfold throw_if.
  destruct (le_at 8 2 str <=? le_at 6 2 str); [reflexivity |]. cbn [bind].
  destruct (Z.of_nat (length (skipn 14 str)) =? 0); reflexivity.
Qed.

End Reading.

(** (C7) Rejection of incoming packets: a buffer is rejected as malformed when
    it is too short for the header reads (every buffer of fewer than 14 bytes,
    so every 13-byte buffer), when the fragment_no it declares is not below
    the fragments_in_this_frame it declares, or when nothing follows the 14
    bytes of the header. Every other buffer parses, and every parsed packet
    is valid with the five header fields read little-endian at offsets 0, 2,
    6, 8 and 10 and the bytes from offset 14 on as payload. *)
Theorem incoming_packet_rejection (str : list byte) :
  ((length str < 14)%nat -> malformed str) /\
  (length str = 13%nat -> malformed str) /\
  ((14 <= length str)%nat -> le_at 6 2 str >= le_at 8 2 str -> malformed str) /\
  (skipn 14 str = [] -> malformed str) /\
  (forall p, Packet.incoming str = Ok p ->
     p = parsed str /\ Packet.valid_ p = true /\
     Packet.fragment_no_ p < Packet.fragments_in_this_frame_ p /\
     Packet.payload_ p <> []) /\
  ((15 <= length str)%nat -> le_at 6 2 str < le_at 8 2 str ->
   Packet.incoming str = Ok (parsed str)).
Proof.
  assert (Hshort : (length str < 14)%nat -> malformed str).
  { intros H. exists chunk_out_of_range. split; [now apply incoming_short | reflexivity]. }
  assert (Hempty : skipn 14 str = [] -> malformed str).
  { intros H. destruct (Nat.lt_ge_cases (length str) 14) as [Hlt | Hge]; [auto |].
    unfold malformed. rewrite (incoming_long str Hge), H.
    change (Z.of_nat (length (@nil byte)) =? 0) with true.
    destruct (le_at 8 2 str <=? le_at 6 2 str); eexists; split; reflexivity. }
  split; [exact Hshort |].
  split; [intros H; apply Hshort; lia |].
  split.
  { intros Hge Hno. unfold malformed. rewrite (incoming_long str Hge).
    destruct (Z.leb_spec (le_at 8 2 str) (le_at 6 2 str)); [| lia].
    eexists; split; reflexivity. }
  split; [exact Hempty |].
  split.
  - intros p H.
    destruct (Nat.lt_ge_cases (length str) 14) as [Hlt | Hge].
    { rewrite (incoming_short str Hlt) in H. discriminate. }
    rewrite (incoming_long str Hge) in H.
    destruct (Z.leb_spec (le_at 8 2 str) (le_at 6 2 str)) as [| Hno]; [discriminate |].
    destruct (Z.eqb_spec (Z.of_nat (length (skipn 14 str))) 0) as [| Hpay]; [discriminate |].
    inversion H; subst p.
    split; [reflexivity |]. split; [reflexivity |]. split; [exact Hno |].
    intros Hnil. change (skipn 14 str = []) in Hnil.
    rewrite Hnil in Hpay. now apply Hpay.
  - intros Hlen Hno. rewrite (incoming_long str) by lia.
    destruct (Z.leb_spec (le_at 8 2 str) (le_at 6 2 str)); [lia |].
    rewrite length_skipn.
    destruct (Z.eqb_spec (Z.of_nat (length str - 14)) 0); [lia | reflexivity].
Qed.

(** *** Serialising, then parsing *)

Lemma le_at_app (offset width : nat) (pre post : list byte) (x : Z) :
  offset = length pre ->
  le_at offset width (pre ++ le_split width x ++ post) = x mod 2 ^ (Z.of_nat width * 8).
Proof.
  intros ->. unfold le_at.
  rewrite skipn_app_r by reflexivity.
  rewrite firstn_app_l by (now rewrite length_le_split).
  apply le_combine_split.
Qed.

Lemma uint16_small x : is_uint16 x -> x mod 2 ^ (Z.of_nat 2 * 8) = x.
Proof. intros H. apply Z.mod_small. exact H. Qed.

Lemma uint32_small x : is_uint32 x -> x mod 2 ^ (Z.of_nat 4 * 8) = x.
Proof. intros H. apply Z.mod_small. exact H. Qed.

Section Header.

Variables (connection_id frame_no fragment_no fragments_in_this_frame time_to_next : Z).
Variable payload : list byte.

Hypothesis connection_id_typed : is_uint16 connection_id.
Hypothesis frame_no_typed : is_uint32 frame_no.
Hypothesis fragment_no_typed : is_uint16 fragment_no.
Hypothesis fragments_in_this_frame_typed : is_uint16 fragments_in_this_frame.
Hypothesis time_to_next_typed : is_uint32 time_to_next.

Let wire : list byte :=
  PacketUtils.put_header_field16 connection_id
  ++ PacketUtils.put_header_field32 frame_no
  ++ PacketUtils.put_header_field16 fragment_no
  ++ PacketUtils.put_header_field16 fragments_in_this_frame
  ++ PacketUtils.put_header_field32 time_to_next
  ++ payload.

Lemma wire_length : length wire = (14 + length payload)%nat.
Proof.
  unfold wire, PacketUtils.put_header_field16, PacketUtils.put_header_field32.
  rewrite !length_app, !length_le_split. reflexivity.
Qed.

Lemma wire_payload : skipn 14 wire = payload.
Proof.
  unfold wire, PacketUtils.put_header_field16, PacketUtils.put_header_field32.
  rewrite !app_assoc. apply skipn_app_r.
  rewrite !length_app, !length_le_split. reflexivity.
Qed.

Lemma wire_parsed :
  parsed wire =
  {| Packet.valid_ := true;
     Packet.connection_id_ := connection_id;
     Packet.frame_no_ := frame_no;
     Packet.fragment_no_ := fragment_no;
     Packet.fragments_in_this_frame_ := fragments_in_this_frame;
     Packet.time_to_next_ := time_to_next;
     Packet.payload_ := payload |}.
Proof.
  unfold parsed. rewrite wire_payload.
  unfold wire, PacketUtils.put_header_field16, PacketUtils.put_header_field32.
  f_equal.
  - rewrite <- (uint16_small connection_id) at 2 by assumption.
    exact (le_at_app 0 2 [] _ connection_id eq_refl).
  - rewrite le_at_app by (now rewrite length_le_split). now apply uint32_small.
  - rewrite (app_assoc (le_split 2 connection_id)).
    rewrite le_at_app by (now rewrite length_app, !length_le_split).
    now apply uint16_small.
  - rewrite (app_assoc (le_split 2 connection_id)), (app_assoc (_ ++ _)).
    rewrite le_at_app by (now rewrite !length_app, !length_le_split).
    now apply uint16_small.
  - rewrite (app_assoc (le_split 2 connection_id)), (app_assoc (_ ++ _)),
      (app_assoc ((_ ++ _) ++ _)).
    rewrite le_at_app by (now rewrite !length_app, !length_le_split).
    now apply uint32_small.
Qed.

End Header.

(** (C8) Header round trip: a packet with members in the range of their
    types, [fragments_in_this_frame_ > 0], [fragment_no_] below it and a
    payload that is not empty serialises, and parsing the bytes gives a valid
    packet with the same connection_id, frame_no, fragment_no,
    fragments_in_this_frame, time_to_next and payload; an ack packet
    serialises to 12 bytes, and parsing them gives the same ack packet. *)
Theorem header_round_trip (p : Packet.t) (a : AckPacket.t)
    (Htyped : Packet.well_typed p)
    (Hcount : 0 < Packet.fragments_in_this_frame_ p)
    (Hno : Packet.fragment_no_ p < Packet.fragments_in_this_frame_ p)
    (Hpayload : Packet.payload_ p <> [])
    (Hack : AckPacket.well_typed a) :
  (exists wire,
     Packet.to_string p = Ok wire /\
     Packet.incoming wire
     = Ok {| Packet.valid_ := true;
             Packet.connection_id_ := Packet.connection_id_ p;
             Packet.frame_no_ := Packet.frame_no_ p;
             Packet.fragment_no_ := Packet.fragment_no_ p;
             Packet.fragments_in_this_frame_ := Packet.fragments_in_this_frame_ p;
             Packet.time_to_next_ := Packet.time_to_next_ p;
             Packet.payload_ := Packet.payload_ p |}) /\
  length (AckPacket.to_string a) = 12%nat /\
  AckPacket.incoming (AckPacket.to_string a) = Ok a.
Proof.
  destruct Htyped as [Hc [Hf [Hn [Ht Hx]]]].
  split.
  - eexists. split.
    + unfold Packet.to_string, assert. apply Z.ltb_lt in Hcount. rewrite Hcount.
      cbn [bind]. reflexivity.
    + destruct (Packet.payload_ p) as [|b payload] eqn:Hpay; [contradiction |].
      rewrite incoming_long by (rewrite wire_length; simpl; lia).
      match goal with
      | |- context [le_at 8 2 ?s] =>
        change (le_at 8 2 s) with (Packet.fragments_in_this_frame_ (parsed s));
        change (le_at 6 2 s) with (Packet.fragment_no_ (parsed s))
      end.
      rewrite wire_parsed, wire_payload by assumption.
      cbn [Packet.fragment_no_ Packet.fragments_in_this_frame_].
      destruct (Z.leb_spec (Packet.fragments_in_this_frame_ p) (Packet.fragment_no_ p));
        [lia |].
      reflexivity.
  - destruct a as [c f n d]. destruct Hack as [Hac [Haf [Han Had]]].
    unfold AckPacket.to_string, AckPacket.incoming. cbn [AckPacket.connection_id_
      AckPacket.frame_no_ AckPacket.fragment_no_ AckPacket.avg_delay_] in *.
    unfold PacketUtils.put_header_field16, PacketUtils.put_header_field32.
    split; [now rewrite !length_app, !length_le_split |].
    rewrite !read_le16, !read_le32 by lia. unfold Chunk.size.
    rewrite !length_app, !length_le_split. cbn [Nat.add Z.of_nat Z.add Z.leb Z.compare
      Pos.of_succ_nat Pos.succ Pos.add Pos.compare Pos.compare_cont bind].
    change (Z.to_nat 8) with 8%nat. change (Z.to_nat 6) with 6%nat.
    change (Z.to_nat 2) with 2%nat. change (Z.to_nat 0) with 0%nat.
    rewrite <- (app_nil_r (le_split 4 d)).
    rewrite (le_at_app 0 2 [] _ c eq_refl : le_at 0 2 (le_split 2 c ++ _) = _).
    rewrite le_at_app by (now rewrite length_le_split).
    rewrite (app_assoc (le_split 2 c)).
    rewrite le_at_app by (now rewrite length_app, !length_le_split).
    rewrite (app_assoc (le_split 2 c ++ _)).
    rewrite le_at_app by (now rewrite !length_app, !length_le_split).
    now rewrite !uint16_small, !uint32_small by assumption.
Qed.

(** ** Splitting a frame *)

Lemma mapM_map {A B} (f : A -> result B) (g : A -> B) (l : list A) :
  (forall a, In a l -> f a = Ok (g a)) -> mapM f l = Ok (map g l).
Proof.
  induction l as [|a l IH]; intros H; simpl; [reflexivity |].
  rewrite (H a (or_introl eq_refl)). simpl.
  rewrite IH by (intros; apply H; now right). reflexivity.
Qed.

Section Splitting.

Variables (MAXIMUM_PAYLOAD connection_id frame_no time_to_next_frame : Z).
Variable whole_frame : list byte.

Let size : Z := Z.of_nat (length whole_frame).

Hypothesis cap_positive : 1 <= MAXIMUM_PAYLOAD.
Hypothesis size_fits_size_t : size < 2 ^ 64.

(** [n] is the number of fragments: the least [n] with
    [size <= n * MAXIMUM_PAYLOAD]; it fits the 16 bits of [fragment_no]. *)
Variable n : nat.
Hypothesis n_least : MAXIMUM_PAYLOAD * (Z.of_nat n - 1) < size.
Hypothesis n_enough : size <= MAXIMUM_PAYLOAD * Z.of_nat n.
Hypothesis n_positive : (0 < n)%nat.
Hypothesis n_fits_uint16 : Z.of_nat n < 2 ^ 16.

(** The payload of fragment [k]. *)
Let slice (k : nat) : list byte :=
  firstn (Z.to_nat (Z.min (size - MAXIMUM_PAYLOAD * Z.of_nat k) MAXIMUM_PAYLOAD))
         (skipn (Z.to_nat (MAXIMUM_PAYLOAD * Z.of_nat k)) whole_frame).

(** Fragment [k] as the loop leaves it. *)
Let raw (k : nat) : Packet.t :=
  {| Packet.valid_ := true;
     Packet.connection_id_ := connection_id;
     Packet.frame_no_ := frame_no;
     Packet.fragment_no_ := Z.of_nat k;
     Packet.fragments_in_this_frame_ := 0;
     Packet.time_to_next_ := 0;
     Packet.payload_ := slice k |}.

Let final : nat -> Packet.t :=
  fragment_of MAXIMUM_PAYLOAD connection_id frame_no time_to_next_frame whole_frame n.

Lemma first_byte_in_frame k :
  (k < n)%nat -> 0 <= MAXIMUM_PAYLOAD * Z.of_nat k < size.
Proof. intros Hk. nia. Qed.

Lemma packet_outgoing_spec k :
  (k < n)%nat ->
  Packet.outgoing MAXIMUM_PAYLOAD whole_frame connection_id frame_no (Z.of_nat k) 0
  = Ok (raw k, if (S k =? n)%nat then size else MAXIMUM_PAYLOAD * Z.of_nat (S k)).
Proof.
  intros Hk. pose proof (first_byte_in_frame k Hk) as Hfirst.
  unfold Packet.outgoing. fold size.
  assert (Hwrap : size_t (MAXIMUM_PAYLOAD * Z.of_nat k) = MAXIMUM_PAYLOAD * Z.of_nat k).
  { unfold size_t. apply Z.mod_small. lia. }
  rewrite Hwrap.
  set (len := Z.min (size - MAXIMUM_PAYLOAD * Z.of_nat k) MAXIMUM_PAYLOAD).
  assert (Hnext : size_t (MAXIMUM_PAYLOAD * Z.of_nat k + len)
                  = if (S k =? n)%nat then size else MAXIMUM_PAYLOAD * Z.of_nat (S k)).
  { unfold size_t. rewrite Z.mod_small by (unfold len; lia).
    unfold len. destruct (Nat.eqb_spec (S k) n) as [Heq | Hne].
    - subst n. rewrite Z.min_l by nia. lia.
    - rewrite Z.min_r by nia. lia. }
  rewrite Hnext.
  unfold assert.
  destruct (Z.eqb_spec size 0) as [|_]; [lia |]. cbn [negb bind].
  destruct (Z.ltb_spec (MAXIMUM_PAYLOAD * Z.of_nat k) size) as [_|]; [| lia]. cbn [bind].
  destruct (Z.leb_spec (if (S k =? n)%nat then size else MAXIMUM_PAYLOAD * Z.of_nat (S k)) size)
    as [_|Hgt].
  2:{ destruct (Nat.eqb_spec (S k) n); nia. }
  reflexivity.
Qed.

Lemma split_loop_spec : forall (m k : nat) fuel next acc,
  (k + m = n)%nat -> (m < fuel)%nat ->
  next = (if (m =? 0)%nat then size else MAXIMUM_PAYLOAD * Z.of_nat k) ->
  FragmentedFrame.split_loop MAXIMUM_PAYLOAD fuel whole_frame connection_id frame_no
    (Z.of_nat k) next acc
  = Some (Ok (acc ++ map raw (seq k m))).
Proof.
  induction m as [|m IH]; intros k [|fuel] next acc Hkm Hfuel Hnext; try lia;
    cbn [FragmentedFrame.split_loop]; fold size; subst next.
  - cbn [Nat.eqb]. rewrite Z.ltb_irrefl. cbn [seq map]. now rewrite app_nil_r.
  - cbn [Nat.eqb].
    pose proof (first_byte_in_frame k ltac:(lia)) as Hfirst.
    destruct (Z.ltb_spec (MAXIMUM_PAYLOAD * Z.of_nat k) size) as [_|]; [| lia].
    rewrite packet_outgoing_spec by lia.
    replace (uint16 (Z.of_nat k + 1)) with (Z.of_nat (S k))
      by (unfold uint16; rewrite Z.mod_small; lia).
    rewrite (IH (S k) fuel _ (acc ++ [raw k])); try lia.
    + cbn [seq map]. now rewrite <- app_assoc.
    + destruct (Nat.eqb_spec (S k) n), (Nat.eqb_spec m 0); try lia; reflexivity.
Qed.

(** With enough fuel the outgoing constructor returns, and what it returns is
    the frame of the [n] fragments [final 0 .. final (n-1)]. *)
Lemma outgoing_spec fuel :
  (n < fuel)%nat ->
  FragmentedFrame.outgoing MAXIMUM_PAYLOAD fuel connection_id frame_no
    time_to_next_frame whole_frame
  = Some (Ok {| FragmentedFrame.connection_id_ := connection_id;
                FragmentedFrame.frame_no_ := frame_no;
                FragmentedFrame.fragments_in_this_frame_ := Z.of_nat n;
                FragmentedFrame.fragments_ := map final (seq 0 n);
                FragmentedFrame.remaining_fragments_ := 0 |}).
Proof.
  intros Hfuel. unfold FragmentedFrame.outgoing.
  assert (Hloop := split_loop_spec n 0 fuel 0 [] eq_refl Hfuel).
  change (Z.of_nat 0) with 0 in Hloop.
  rewrite Hloop by (destruct (Nat.eqb_spec n 0); lia).
  cbn [app bind].
  destruct n as [|n'] eqn:Hn; [lia |].
  unfold FragmentedFrame.set_time_to_next_of_back.
  rewrite seq_S, map_app. cbn [map Nat.add]. rewrite rev_app_distr. cbn [rev app].
  rewrite rev_involutive. cbn [bind].
  rewrite length_app, length_map, length_seq. cbn [length].
  replace (uint16 (Z.of_nat (n' + 1))) with (Z.of_nat (S n'))
    by (unfold uint16; rewrite Z.mod_small; lia).
  rewrite (mapM_map _ (fun p =>
             {| Packet.valid_ := Packet.valid_ p;
                Packet.connection_id_ := Packet.connection_id_ p;
                Packet.frame_no_ := Packet.frame_no_ p;
                Packet.fragment_no_ := Packet.fragment_no_ p;
                Packet.fragments_in_this_frame_ := Z.of_nat (S n');
                Packet.time_to_next_ := Packet.time_to_next_ p;
                Packet.payload_ := Packet.payload_ p |})).
  - cbn [bind]. do 3 f_equal.
    rewrite !map_app, map_map. cbn [map]. f_equal.
    + apply map_ext_in. intros k Hk. apply in_seq in Hk.
      unfold final, fragment_of, raw, slice. cbn [Packet.valid_ Packet.connection_id_
        Packet.frame_no_ Packet.fragment_no_ Packet.time_to_next_ Packet.payload_].
      fold size. destruct (Nat.eqb_spec (S k) (S n')); [lia | reflexivity].
    + unfold final, fragment_of, raw, slice, Packet.set_time_to_next.
      cbn [Packet.valid_ Packet.connection_id_
        Packet.frame_no_ Packet.fragment_no_ Packet.time_to_next_ Packet.payload_].
      fold size. now rewrite Nat.eqb_refl.
  - intros p Hin. unfold Packet.set_fragments_in_this_frame, assert.
    cbn [Packet.fragment_no_ Packet.fragments_in_this_frame_].
    assert (Hlt : Packet.fragment_no_ p < Z.of_nat (S n')).
    { apply in_app_or in Hin. destruct Hin as [Hin | [<- | []]].
      - apply in_map_iff in Hin. destruct Hin as [k [<- Hk]]. apply in_seq in Hk.
        cbn [raw Packet.fragment_no_]. lia.
      - cbn [raw Packet.set_time_to_next Packet.fragment_no_]. lia. }
    apply Z.ltb_lt in Hlt. rewrite Hlt. reflexivity.
Qed.

End Splitting.

(** ** Reassembling a frame *)

Section Reassembly.

(** The [n] fragments [F 0 .. F (n-1)] of one frame. *)
Variables (connection_id frame_no : Z) (n : nat) (F : nat -> Packet.t).

Hypothesis n_positive : (0 < n)%nat.
Hypothesis n_fits_uint16 : Z.of_nat n < 2 ^ 16.
Hypothesis F_valid : forall k, (k < n)%nat -> Packet.valid_ (F k) = true.
Hypothesis F_connection_id : forall k, (k < n)%nat -> Packet.connection_id_ (F k) = connection_id.
Hypothesis F_frame_no : forall k, (k < n)%nat -> Packet.frame_no_ (F k) = frame_no.
Hypothesis F_fragment_no : forall k, (k < n)%nat -> Packet.fragment_no_ (F k) = Z.of_nat k.
Hypothesis F_count : forall k, (k < n)%nat -> Packet.fragments_in_this_frame_ (F k) = Z.of_nat n.

(** An incoming frame for these fragments: every slot is empty or holds the
    fragment of its index. *)
Let receiving (ff : FragmentedFrame.t) : Prop :=
  frame_inv ff /\
  FragmentedFrame.connection_id_ ff = connection_id /\
  FragmentedFrame.frame_no_ ff = frame_no /\
  FragmentedFrame.fragments_in_this_frame_ ff = Z.of_nat n /\
  forall k p, nth_error (FragmentedFrame.fragments_ ff) k = Some p ->
              p = Packet.empty \/ p = F k.

Let holds (ff : FragmentedFrame.t) (k : nat) : Prop :=
  nth_error (FragmentedFrame.fragments_ ff) k = Some (F k).

Lemma add_fragment ff k :
  receiving ff -> (k < n)%nat ->
  exists ff',
    FragmentedFrame.add_packet (F k) ff = (Ok tt, ff') /\
    receiving ff' /\ holds ff' k /\
    forall j, holds ff j -> holds ff' j.
Proof.
  intros Hrec Hk.
  assert (Hinv' : frame_inv (snd (FragmentedFrame.add_packet (F k) ff))).
  { apply add_packet_inv; [apply Hrec | now apply F_valid | rewrite F_fragment_no; lia]. }
  destruct Hrec as [Hinv [Hcid [Hfno [Hn Hslots]]]].
  assert (Hcheck : FragmentedFrame.sanity_check ff (F k) = Ok tt).
  { apply sanity_check_ok.
    rewrite F_connection_id, F_count, F_frame_no, F_fragment_no by assumption. lia. }
  assert (Hlen : length (FragmentedFrame.fragments_ ff) = n).
  { destruct Hinv as [Hlen _]. lia. }
  assert (Hidx : Z.to_nat (Packet.fragment_no_ (F k)) = k).
  { rewrite F_fragment_no by assumption. apply Nat2Z.id. }
  destruct (add_packetP (F k) ff) as [e Hs | Hs Hnone | target Hs Hsome Ht | target Hs Hsome Ht];
    rewrite ?Hidx in *.
  - congruence.
  - apply nth_error_None in Hnone. lia.
  - exists ff. split; [reflexivity |].
    assert (Hholds : holds ff k).
    { unfold holds. destruct (Hslots k target Hsome) as [-> | ->];
        [discriminate | exact Hsome]. }
    split; [exact (conj Hinv (conj Hcid (conj Hfno (conj Hn Hslots)))) |].
    split; [exact Hholds | auto].
  - eexists. split; [reflexivity |]. simpl in Hinv'.
    split; [| split].
    + refine (conj Hinv' (conj Hcid (conj Hfno (conj Hn _)))). simpl. rewrite Hidx.
      intros j p Hj. destruct (Nat.eq_dec k j) as [<- | Hne].
      * rewrite nth_error_replace_nth_same in Hj by lia. right. congruence.
      * rewrite nth_error_replace_nth_other in Hj by exact Hne. now apply Hslots.
    + unfold holds. simpl. rewrite Hidx. apply nth_error_replace_nth_same. lia.
    + unfold holds. simpl. rewrite Hidx.
      intros j Hj. destruct (Nat.eq_dec k j) as [<- | Hne].
      * apply nth_error_replace_nth_same. lia.
      * now rewrite nth_error_replace_nth_other.
Qed.

Lemma add_fragments packets : forall ff,
  receiving ff ->
  (forall p, In p packets -> exists k, (k < n)%nat /\ p = F k) ->
  exists ff',
    add_packets packets ff = (Ok tt, ff') /\
    receiving ff' /\
    (forall j, holds ff j -> holds ff' j) /\
    (forall k, (k < n)%nat -> In (F k) packets -> holds ff' k).
Proof.
  induction packets as [|p packets IH]; intros ff Hrec Hall.
  - exists ff. split; [reflexivity |]. split; [exact Hrec |].
    split; [auto | intros k _ []].
  - destruct (Hall p (or_introl eq_refl)) as [k [Hk ->]].
    destruct (add_fragment ff k Hrec Hk) as [ff1 [Hadd [Hrec1 [Hk1 Hmono1]]]].
    destruct (IH ff1 Hrec1) as [ff2 [Hadds [Hrec2 [Hmono2 Hin2]]]].
    { intros q Hq. apply Hall. now right. }
    exists ff2. split; [| split; [exact Hrec2 | split]].
    + cbn [add_packets]. unfold bindM. now rewrite Hadd.
    + auto.
    + intros j Hj [Heq | Hin]; [| now apply Hin2].
      assert (holds ff1 j) as Hj1.
      { unfold holds. rewrite <- Heq. unfold holds in Hk1.
        assert (j = k).
        { apply (f_equal Packet.fragment_no_) in Heq.
          rewrite !F_fragment_no in Heq by assumption. lia. }
        now subst j. }
      now apply Hmono2.
Qed.

Lemma found_by_fragment k :
  (k < n)%nat ->
  exists ff,
    FragmentedFrame.incoming connection_id (F k) = Ok ff /\ receiving ff /\ holds ff k.
Proof.
  intros Hk.
  set (ff0 := {| FragmentedFrame.connection_id_ := connection_id;
                 FragmentedFrame.frame_no_ := frame_no;
                 FragmentedFrame.fragments_in_this_frame_ := Z.of_nat n;
                 FragmentedFrame.fragments_ := repeat Packet.empty n;
                 FragmentedFrame.remaining_fragments_ := Z.of_nat n |}).
  assert (Hrec0 : receiving ff0).
  { assert (Hempty : forall j p, nth_error (repeat Packet.empty n) j = Some p ->
                                  p = Packet.empty).
    { intros j p Hj. now apply nth_error_In, repeat_spec in Hj. }
    split; [| split; [reflexivity | split; [reflexivity | split; [reflexivity |]]]].
    - unfold frame_inv, ff0. simpl. rewrite repeat_length, count_invalid_repeat_empty.
      split; [reflexivity |]. split; [exact n_fits_uint16 |]. split; [reflexivity |].
      intros j p Hj Hp. apply Hempty in Hj. subst p. discriminate.
    - intros j p Hj. left. now apply Hempty in Hj. }
  destruct (add_fragment ff0 k Hrec0 Hk) as [ff [Hadd [Hrec [Hholds _]]]].
  exists ff. split; [| split; [exact Hrec | exact Hholds]].
  unfold FragmentedFrame.incoming.
  rewrite F_count, F_frame_no, Nat2Z.id by assumption. fold ff0.
  unfold bindM at 1, read at 1.
  assert (Hcheck : FragmentedFrame.sanity_check ff0 (F k) = Ok tt).
  { apply sanity_check_ok. unfold ff0. simpl.
    rewrite F_connection_id, F_count, F_frame_no, F_fragment_no by assumption. lia. }
  now rewrite Hcheck, Hadd.
Qed.

(** The fragments, received in any order, fill every slot. *)
Lemma receive_all first others :
  Permutation (first :: others) (map F (seq 0 n)) ->
  exists ff,
    receive connection_id first others = Ok ff /\
    FragmentedFrame.fragments_ ff = map F (seq 0 n) /\
    FragmentedFrame.complete ff = true.
Proof.
  intros Hperm.
  assert (Hfrom : forall p, In p (first :: others) -> exists k, (k < n)%nat /\ p = F k).
  { intros p Hp. apply (Permutation_in _ Hperm), in_map_iff in Hp.
    destruct Hp as [k [<- Hk]]. apply in_seq in Hk. exists k. split; [lia | reflexivity]. }
  destruct (Hfrom first (or_introl eq_refl)) as [k0 [Hk0 ->]].
  destruct (found_by_fragment k0 Hk0) as [ff0 [Hfound [Hrec0 Hholds0]]].
  destruct (add_fragments others ff0 Hrec0) as [ff [Hadds [Hrec [Hmono Hin]]]].
  { intros p Hp. apply Hfrom. now right. }
  assert (Hall : forall k, (k < n)%nat -> holds ff k).
  { intros k Hk.
    assert (Hk' : In (F k) (F k0 :: others)).
    { apply (Permutation_in _ (Permutation_sym Hperm)), in_map, in_seq. lia. }
    destruct Hk' as [Heq | Hk'']; [| now apply Hin].
    assert (k0 = k).
    { apply (f_equal Packet.fragment_no_) in Heq.
      rewrite !F_fragment_no in Heq by assumption. lia. }
    subst k0. now apply Hmono. }
  destruct Hrec as [[Hlen [_ [Hrem _]]] [_ [_ [Hn _]]]].
  assert (Hslots : FragmentedFrame.fragments_ ff = map F (seq 0 n)).
  { apply nth_error_ext. intros k. rewrite nth_error_map_seq.
    destruct (Nat.ltb_spec k n) as [Hk | Hk]; [now apply Hall |].
    apply nth_error_None. lia. }
  exists ff. split; [| split; [exact Hslots |]].
  - unfold receive. rewrite Hfound. cbn [bind]. now rewrite Hadds.
  - unfold FragmentedFrame.complete. rewrite Hrem, Hslots.
    rewrite count_invalid_all_valid; [reflexivity |].
    apply Forall_forall. intros p Hp. apply in_map_iff in Hp.
    destruct Hp as [k [<- Hk]]. apply in_seq in Hk. apply F_valid. lia.
Qed.

End Reassembly.

(** ** The payloads of the fragments of a frame *)

Lemma ceil_div_spec a b :
  0 < b -> b * (ceil_div a b - 1) < a <= b * ceil_div a b.
Proof.
  intros Hb. unfold ceil_div.
  pose proof (Z.div_mod (a + b - 1) b ltac:(lia)) as Hdiv.
  pose proof (Z.mod_pos_bound (a + b - 1) b Hb) as Hmod.
  nia.
Qed.

Section Payloads.

Variables (MAXIMUM_PAYLOAD connection_id frame_no time_to_next_frame : Z).
Variable whole_frame : list byte.
Variable n : nat.

Let size : Z := Z.of_nat (length whole_frame).
Let final : nat -> Packet.t :=
  fragment_of MAXIMUM_PAYLOAD connection_id frame_no time_to_next_frame whole_frame n.

Hypothesis cap_positive : 1 <= MAXIMUM_PAYLOAD.
Hypothesis n_least : MAXIMUM_PAYLOAD * (Z.of_nat n - 1) < size.
Hypothesis n_enough : size <= MAXIMUM_PAYLOAD * Z.of_nat n.

Lemma fragment_payload_length k :
  (k < n)%nat ->
  Z.of_nat (length (Packet.payload_ (final k)))
  = Z.min (size - MAXIMUM_PAYLOAD * Z.of_nat k) MAXIMUM_PAYLOAD.
Proof.
  intros Hk. unfold final, fragment_of. cbn [Packet.payload_]. fold size.
  rewrite length_firstn, length_skipn.
  assert (0 <= MAXIMUM_PAYLOAD * Z.of_nat k < size) by nia.
  unfold size in *. lia.
Qed.

Lemma fragment_payload_not_empty k :
  (k < n)%nat -> Packet.payload_ (final k) <> [].
Proof.
  intros Hk Hnil. pose proof (fragment_payload_length k Hk) as Hlen.
  rewrite Hnil in Hlen. simpl in Hlen.
  assert (0 <= MAXIMUM_PAYLOAD * Z.of_nat k < size) by nia. lia.
Qed.

Lemma payloads_from : forall m k,
  (k + m = n)%nat ->
  payloads (map final (seq k m))
  = skipn (Z.to_nat (MAXIMUM_PAYLOAD * Z.of_nat k)) whole_frame.
Proof.
  induction m as [|m IH]; intros k Hkm.
  - cbn [seq map]. symmetry. apply skipn_all2. unfold size in *. nia.
  - cbn [seq map]. unfold payloads in *. cbn [map concat].
    rewrite (IH (S k)) by lia.
    unfold final at 1, fragment_of. cbn [Packet.payload_]. fold size.
    assert (Hfirst : 0 <= MAXIMUM_PAYLOAD * Z.of_nat k < size) by nia.
    set (first_byte := Z.to_nat (MAXIMUM_PAYLOAD * Z.of_nat k)).
    destruct (Z.le_gt_cases MAXIMUM_PAYLOAD (size - MAXIMUM_PAYLOAD * Z.of_nat k))
      as [Hfull | Hlast].
    + rewrite Z.min_r by exact Hfull.
      replace (Z.to_nat (MAXIMUM_PAYLOAD * Z.of_nat (S k)))
        with (Z.to_nat MAXIMUM_PAYLOAD + first_byte)%nat by (unfold first_byte; nia).
      rewrite <- skipn_skipn. apply firstn_skipn.
    + rewrite Z.min_l by lia.
      rewrite (skipn_all2 (n := Z.to_nat (MAXIMUM_PAYLOAD * Z.of_nat (S k))))
        by (unfold size in *; nia).
      rewrite app_nil_r. apply firstn_all2.
      rewrite length_skipn. unfold first_byte, size in *. lia.
Qed.

Lemma payloads_of_fragments : payloads (map final (seq 0 n)) = whole_frame.
Proof. rewrite (payloads_from n 0) by lia. now rewrite Z.mul_0_r. Qed.

End Payloads.

(** ** More fragments than fragment_no can count *)

Section TooManyFragments.

Variables (MAXIMUM_PAYLOAD connection_id frame_no : Z).
Variable whole_frame : list byte.

Let size : Z := Z.of_nat (length whole_frame).

Hypothesis cap_positive : 1 <= MAXIMUM_PAYLOAD.
Hypothesis size_fits_size_t : size < 2 ^ 64.
Hypothesis too_many : 2 ^ 16 * MAXIMUM_PAYLOAD < size.

(** [fragment_no] wraps to 0 before [next_fragment_start] reaches the end of
    the frame, the next packet starts again at byte 0, and the loop goes
    on. *)
Lemma split_loop_never_returns : forall fuel fragment_no next_fragment_start fragments,
  0 <= fragment_no < 2 ^ 16 ->
  next_fragment_start < size ->
  FragmentedFrame.split_loop MAXIMUM_PAYLOAD fuel whole_frame connection_id frame_no
    fragment_no next_fragment_start fragments = None.
Proof.
  induction fuel as [|fuel IH]; intros f next acc Hf Hnext; [reflexivity |].
  cbn [FragmentedFrame.split_loop]. fold size.
  destruct (Z.ltb_spec next size) as [_|]; [| lia].
  unfold Packet.outgoing. fold size.
  assert (Hfirst : 0 <= MAXIMUM_PAYLOAD * f <= (2 ^ 16 - 1) * MAXIMUM_PAYLOAD) by nia.
  unfold size_t. rewrite (Z.mod_small (MAXIMUM_PAYLOAD * f)) by lia.
  rewrite Z.min_r by lia.
  rewrite Z.mod_small by lia.
  unfold assert.
  destruct (Z.eqb_spec size 0); [lia |]. cbn [negb bind].
  destruct (Z.ltb_spec (MAXIMUM_PAYLOAD * f) size); [| lia]. cbn [bind].
  destruct (Z.leb_spec (MAXIMUM_PAYLOAD * f + MAXIMUM_PAYLOAD) size); [| lia]. cbn [bind].
  apply IH.
  - unfold uint16. apply Z.mod_pos_bound. lia.
  - lia.
Qed.

Lemma outgoing_never_returns fuel time_to_next_frame :
  FragmentedFrame.outgoing MAXIMUM_PAYLOAD fuel connection_id frame_no
    time_to_next_frame whole_frame = None.
Proof.
  unfold FragmentedFrame.outgoing.
  rewrite split_loop_never_returns; [reflexivity | lia | lia].
Qed.

End TooManyFragments.

(** ** Splitting and reassembly together *)

Lemma last_map_seq {A} (f : nat -> A) (n : nat) (d : A) :
  (0 < n)%nat -> last (map f (seq 0 n)) d = f (n - 1)%nat.
Proof.
  intros Hn. destruct n as [|n]; [lia |].
  rewrite seq_S, map_app. cbn [map Nat.add]. rewrite last_last.
  f_equal. lia.
Qed.

Section RoundTrip.

Variables (MAXIMUM_PAYLOAD connection_id frame_no time_to_next_frame : Z).
Variable whole_frame : list byte.

Let size : Z := Z.of_nat (length whole_frame).
Let n : nat := Z.to_nat (ceil_div size MAXIMUM_PAYLOAD).
Let final : nat -> Packet.t :=
  fragment_of MAXIMUM_PAYLOAD connection_id frame_no time_to_next_frame whole_frame n.

Hypothesis frame_not_empty : whole_frame <> [].
Hypothesis cap_positive : 1 <= MAXIMUM_PAYLOAD.
Hypothesis size_fits_size_t : size < 2 ^ 64.
Hypothesis count_fits_uint16 : size <= 65535 * MAXIMUM_PAYLOAD.

Lemma size_positive : 0 < size.
Proof. unfold size. destruct whole_frame; [contradiction | simpl; lia]. Qed.

Lemma count_bounds :
  MAXIMUM_PAYLOAD * (Z.of_nat n - 1) < size <= MAXIMUM_PAYLOAD * Z.of_nat n /\
  (0 < n)%nat /\ Z.of_nat n < 2 ^ 16 /\ Z.of_nat n = ceil_div size MAXIMUM_PAYLOAD.
Proof.
  pose proof size_positive as Hsize.
  pose proof (ceil_div_spec size MAXIMUM_PAYLOAD ltac:(lia)) as Hceil.
  assert (Hpos : 0 < ceil_div size MAXIMUM_PAYLOAD) by nia.
  unfold n. rewrite Z2Nat.id by lia.
  repeat split; try lia; nia.
Qed.

Lemma outgoing_returns fuel :
  (n < fuel)%nat ->
  FragmentedFrame.outgoing MAXIMUM_PAYLOAD fuel connection_id frame_no
    time_to_next_frame whole_frame
  = Some (Ok {| FragmentedFrame.connection_id_ := connection_id;
                FragmentedFrame.frame_no_ := frame_no;
                FragmentedFrame.fragments_in_this_frame_ := Z.of_nat n;
                FragmentedFrame.fragments_ := map final (seq 0 n);
                FragmentedFrame.remaining_fragments_ := 0 |}).
Proof.
  destruct count_bounds as [[Hleast Henough] [Hpos [Hfits _]]].
  now apply outgoing_spec.
Qed.

End RoundTrip.

(** (C1, as amended) Split/reassemble round trip: for every non-empty buffer
    and payload cap [>= 1] such that the buffer needs at most [2^16 - 1]
    fragments (its size is at most [65535 * MAXIMUM_PAYLOAD]; the size fits
    [size_t]), the outgoing constructor returns a frame, and its fragments,
    fed in any order to a receiver (the first founds the incoming frame, the
    others are added), give a frame with [complete()] true and [frame()] equal
    to the buffer. *)
Theorem split_reassemble (MAXIMUM_PAYLOAD connection_id frame_no time_to_next_frame : Z)
    (whole_frame : list byte)
    (Hnot_empty : whole_frame <> [])
    (Hcap : 1 <= MAXIMUM_PAYLOAD)
    (Hsize : Z.of_nat (length whole_frame) < 2 ^ 64)
    (Hcount : Z.of_nat (length whole_frame) <= 65535 * MAXIMUM_PAYLOAD) :
  split_reassemble_round_trip MAXIMUM_PAYLOAD connection_id frame_no
    time_to_next_frame whole_frame.
Proof.
  set (n := Z.to_nat (ceil_div (Z.of_nat (length whole_frame)) MAXIMUM_PAYLOAD)).
  set (final := fragment_of MAXIMUM_PAYLOAD connection_id frame_no time_to_next_frame
                  whole_frame n).
  destruct (count_bounds MAXIMUM_PAYLOAD connection_id frame_no time_to_next_frame
              whole_frame Hnot_empty Hcap Hsize Hcount)
    as [[Hleast Henough] [Hpos [Hfits _]]].
  fold n in Hleast, Henough, Hpos, Hfits.
  exists (S n), {| FragmentedFrame.connection_id_ := connection_id;
                   FragmentedFrame.frame_no_ := frame_no;
                   FragmentedFrame.fragments_in_this_frame_ := Z.of_nat n;
                   FragmentedFrame.fragments_ := map final (seq 0 n);
                   FragmentedFrame.remaining_fragments_ := 0 |}.
  split.
  - intros fuel Hfuel. apply outgoing_returns; try assumption; fold n; lia.
  - cbn [FragmentedFrame.fragments_]. intros first others Hperm.
    destruct (receive_all connection_id frame_no n final) with (first := first)
      (others := others) as [ff [Hreceive [Hslots Hcomplete]]];
      try reflexivity; try assumption.
    exists ff. split; [exact Hreceive |]. split; [exact Hcomplete |].
    rewrite (frame_complete ff Hcomplete), Hslots.
    f_equal. now apply payloads_of_fragments.
Qed.

(** (C2, as amended) Fragment count: under the same conditions the outgoing
    constructor returns a frame of exactly [ceil( size / MAXIMUM_PAYLOAD )]
    fragments, the payload of the last one has
    [size - (count - 1) * MAXIMUM_PAYLOAD] bytes, and no payload is empty. *)
Theorem fragment_count_determinism
    (MAXIMUM_PAYLOAD connection_id frame_no time_to_next_frame : Z)
    (whole_frame : list byte)
    (Hnot_empty : whole_frame <> [])
    (Hcap : 1 <= MAXIMUM_PAYLOAD)
    (Hsize : Z.of_nat (length whole_frame) < 2 ^ 64)
    (Hcount : Z.of_nat (length whole_frame) <= 65535 * MAXIMUM_PAYLOAD) :
  fragment_count_law MAXIMUM_PAYLOAD connection_id frame_no
    time_to_next_frame whole_frame.
Proof.
  set (n := Z.to_nat (ceil_div (Z.of_nat (length whole_frame)) MAXIMUM_PAYLOAD)).
  set (final := fragment_of MAXIMUM_PAYLOAD connection_id frame_no time_to_next_frame
                  whole_frame n).
  destruct (count_bounds MAXIMUM_PAYLOAD connection_id frame_no time_to_next_frame
              whole_frame Hnot_empty Hcap Hsize Hcount)
    as [[Hleast Henough] [Hpos [Hfits Hceil]]].
  fold n in Hleast, Henough, Hpos, Hfits, Hceil.
  exists (S n), {| FragmentedFrame.connection_id_ := connection_id;
                   FragmentedFrame.frame_no_ := frame_no;
                   FragmentedFrame.fragments_in_this_frame_ := Z.of_nat n;
                   FragmentedFrame.fragments_ := map final (seq 0 n);
                   FragmentedFrame.remaining_fragments_ := 0 |}.
  split.
  - intros fuel Hfuel. apply outgoing_returns; try assumption; fold n; lia.
  - cbn [FragmentedFrame.fragments_]. rewrite length_map, length_seq.
    split; [exact Hceil |]. split.
    + rewrite last_map_seq by exact Hpos.
      unfold final.
      rewrite (fragment_payload_length MAXIMUM_PAYLOAD connection_id frame_no
                 time_to_next_frame whole_frame n) by lia.
      rewrite Z.min_l by nia. nia.
    + apply Forall_forall. intros p Hp. apply in_map_iff in Hp.
      destruct Hp as [k [<- Hk]]. apply in_seq in Hk.
      apply fragment_payload_not_empty; try assumption. lia.
Qed.

(** The frame of 65537 zero bytes, with a payload cap of one byte. *)
Lemma long_frame_size : Z.of_nat (length (repeat Byte.x00 (Z.to_nat 65537))) = 65537.
Proof. rewrite repeat_length. apply Z2Nat.id. lia. Qed.

Lemma long_frame_never_built fuel :
  FragmentedFrame.outgoing 1 fuel 0 0 0 (repeat Byte.x00 (Z.to_nat 65537)) = None.
Proof.
  apply outgoing_never_returns; rewrite ?long_frame_size; lia.
Qed.

(** (C1, as stated) A counterexample: a frame of 65537 bytes with a payload
    cap of 1 is not empty and the cap is [>= 1], but the outgoing constructor
    never returns: after fragment 65535 the 16-bit [fragment_no] wraps to 0
    while one byte is still to be sent. *)
Lemma split_reassemble_long_frame :
  ~ split_reassemble_round_trip 1 0 0 0 (repeat Byte.x00 (Z.to_nat 65537)).
Proof.
  intros [fuel0 [out [Hout _]]].
  specialize (Hout fuel0 (Nat.le_refl _)).
  rewrite long_frame_never_built in Hout. discriminate.
Qed.

(** (C2, as stated) A counterexample: for the same frame no frame of
    [ceil( 65537 / 1 )] fragments is ever returned. *)
Lemma fragment_count_long_frame :
  ~ fragment_count_law 1 0 0 0 (repeat Byte.x00 (Z.to_nat 65537)).
Proof.
  intros [fuel0 [out [Hout _]]].
  specialize (Hout fuel0 (Nat.le_refl _)).
  rewrite long_frame_never_built in Hout. discriminate.
Qed.

(** ** The properties on a small frame *)

Lemma example_is_fragment_2 : is_fragment (example_fragment 2).
Proof.
  split; [reflexivity |].
  unfold Packet.well_typed, is_uint16, is_uint32. simpl. lia.
Qed.

Lemma example_is_fragment_0 : is_fragment (example_fragment 0).
Proof.
  split; [reflexivity |].
  unfold Packet.well_typed, is_uint16, is_uint32. simpl. lia.
Qed.

Lemma example_reachable : reachable 4 example_incoming.
Proof.
  change example_incoming
    with (snd (FragmentedFrame.add_packet (example_fragment 0)
                 {| FragmentedFrame.connection_id_ := 7;
                    FragmentedFrame.frame_no_ := 9;
                    FragmentedFrame.fragments_in_this_frame_ := 3;
                    FragmentedFrame.fragments_ :=
                      [Packet.empty; Packet.empty; example_fragment 2];
                    FragmentedFrame.remaining_fragments_ := 2 |})).
  apply reachable_add_packet; [| exact example_is_fragment_0].
  apply reachable_incoming with (connection_id := 7) (packet := example_fragment 2);
    [exact example_is_fragment_2 | reflexivity].
Qed.

(** The round trip of the ten-byte frame. *)
Lemma split_reassemble_example :
  split_reassemble_round_trip 4 7 9 55 example_buffer.
Proof.
  apply split_reassemble; [discriminate | lia | simpl; lia | simpl; lia].
Defined.

(** The ten-byte frame has [ceil( 10 / 4 ) = 3] fragments, the last of two
    bytes. *)
Lemma fragment_count_example :
  fragment_count_law 4 7 9 55 example_buffer.
Proof.
  apply fragment_count_determinism; [discriminate | lia | simpl; lia | simpl; lia].
Defined.

(** With fragments 0 and 2 present, the partial frame is the payload of
    fragment 0. *)
Lemma partial_frame_example :
  FragmentedFrame.partial_frame example_incoming
    = payloads (firstn 1 (FragmentedFrame.fragments_ example_incoming)) /\
  (1%nat = 0%nat -> FragmentedFrame.partial_frame example_incoming = []).
Proof.
  apply (partial_frame_prefix example_incoming 1).
  - simpl. constructor; [reflexivity | constructor].
  - simpl. intros p H. inversion H. reflexivity.
Defined.

(** A packet of connection 8 is rejected by the frame of connection 7. *)
Lemma add_packet_mismatch_example :
  exists e,
    FragmentedFrame.add_packet example_stranger example_incoming
      = (Throw e, example_incoming) /\
    kind_of e = ProtocolMismatch.
Proof.
  apply add_packet_mismatch_rejected. left. simpl. lia.
Defined.


(** Fragment 2 of the example frame and an ack packet, serialised and
    parsed. *)
Lemma header_round_trip_example :
  (exists wire,
     Packet.to_string (example_fragment 2) = Ok wire /\
     Packet.incoming wire
     = Ok {| Packet.valid_ := true;
             Packet.connection_id_ := 7;
             Packet.frame_no_ := 9;
             Packet.fragment_no_ := 2;
             Packet.fragments_in_this_frame_ := 3;
             Packet.time_to_next_ := 55;
             Packet.payload_ := [Byte.x09; Byte.x0a] |}) /\
  length (AckPacket.to_string example_ack) = 12%nat /\
  AckPacket.incoming (AckPacket.to_string example_ack) = Ok example_ack.
Proof.
  apply (header_round_trip (example_fragment 2) example_ack).
  - unfold Packet.well_typed, is_uint16, is_uint32. simpl. lia.
  - simpl. lia.
  - simpl. lia.
  - simpl. discriminate.
  - unfold AckPacket.well_typed, is_uint16, is_uint32. simpl. lia.
Defined.


(** Other bytes for slot 0 of the example frame are dropped. *)
Lemma add_packet_first_write_wins_example :
  FragmentedFrame.add_packet example_conflicting example_incoming
    = (Ok tt, example_incoming) /\
  FragmentedFrame.slot (Packet.fragment_no_ example_conflicting)
    (snd (FragmentedFrame.add_packet example_conflicting example_incoming))
    = Ok (example_fragment 0).
Proof.
  apply add_packet_first_write_wins; reflexivity.
Defined.

(** * Further properties of the code *)

(** ** What add_packet leaves alone *)

(** (X1) [add_packet] never writes the identity of the frame, never changes the
    number of slots, writes no slot but the one the packet names, and never
    overwrites a valid slot; this holds for every frame and packet, whether
    the call throws or not. *)
Theorem add_packet_preserves (ff : FragmentedFrame.t) (p : Packet.t) :
  FragmentedFrame.connection_id_ (snd (FragmentedFrame.add_packet p ff))
    = FragmentedFrame.connection_id_ ff /\
  FragmentedFrame.frame_no_ (snd (FragmentedFrame.add_packet p ff))
    = FragmentedFrame.frame_no_ ff /\
  FragmentedFrame.fragments_in_this_frame_ (snd (FragmentedFrame.add_packet p ff))
    = FragmentedFrame.fragments_in_this_frame_ ff /\
  length (FragmentedFrame.fragments_ (snd (FragmentedFrame.add_packet p ff)))
    = length (FragmentedFrame.fragments_ ff) /\
  (forall i, i <> Z.to_nat (Packet.fragment_no_ p) ->
     nth_error (FragmentedFrame.fragments_ (snd (FragmentedFrame.add_packet p ff))) i
     = nth_error (FragmentedFrame.fragments_ ff) i) /\
  (forall i q, nth_error (FragmentedFrame.fragments_ ff) i = Some q ->
     Packet.valid_ q = true ->
     nth_error (FragmentedFrame.fragments_ (snd (FragmentedFrame.add_packet p ff))) i
     = Some q).
Proof.
  destruct (add_packetP p ff) as [e Hs | Hs Hn | target Hs Hn Ht | target Hs Hn Ht];
    cbn [snd]; try (repeat split; auto; fail).
  cbn [FragmentedFrame.assign_slot FragmentedFrame.decrement_remaining
       FragmentedFrame.connection_id_ FragmentedFrame.frame_no_
       FragmentedFrame.fragments_in_this_frame_ FragmentedFrame.fragments_].
  split; [reflexivity |]. split; [reflexivity |]. split; [reflexivity |].
  split; [apply replace_nth_length |]. split.
  - intros i Hi. apply nth_error_replace_nth_other. congruence.
  - intros i q Hi Hq.
    destruct (Nat.eq_dec (Z.to_nat (Packet.fragment_no_ p)) i) as [<- | Hne].
    + congruence.
    + now rewrite nth_error_replace_nth_other.
Qed.

(** (X2) On a frame with as many slots as it declares, [add_packet] of a packet
    with a fragment_no in the range of its type throws nothing but the
    protocol mismatches of [sanity_check] (it never indexes outside the
    slots), and a call that throws leaves the frame as it was. *)
Theorem add_packet_throws_only_mismatch (ff : FragmentedFrame.t) (p : Packet.t) (e : error)
    (Hslots : Z.of_nat (length (FragmentedFrame.fragments_ ff))
              = FragmentedFrame.fragments_in_this_frame_ ff)
    (Hno : 0 <= Packet.fragment_no_ p)
    (Hthrows : fst (FragmentedFrame.add_packet p ff) = Throw e) :
  kind_of e = ProtocolMismatch /\ snd (FragmentedFrame.add_packet p ff) = ff.
Proof.
  destruct (add_packetP p ff) as [e' Hs | Hs Hn | target Hs Hn Ht | target Hs Hn Ht];
    cbn [fst snd] in *; try discriminate.
  - inversion Hthrows; subst e'. split; [| reflexivity].
    exact (sanity_check_throws _ _ _ Hs).
  - exfalso. apply sanity_check_ok in Hs. destruct Hs as [_ [_ [_ Hlt]]].
    apply nth_error_None in Hn. lia.
Qed.

Lemma add_packet_throws_example :
  kind_of connection_id_mismatch = ProtocolMismatch /\
  snd (FragmentedFrame.add_packet example_stranger example_incoming) = example_incoming.
Proof.
  apply (add_packet_throws_only_mismatch example_incoming example_stranger
           connection_id_mismatch); [reflexivity | simpl; lia | reflexivity].
Defined.

(** ** Completeness *)

(** (X3) In a frame a program can build, [complete()] is true exactly when every
    slot is valid, and [remaining_fragments_] lies between 0 and the number of
    slots. *)
Theorem complete_iff_all_valid (MAXIMUM_PAYLOAD : Z) (ff : FragmentedFrame.t)
    (Hreach : reachable MAXIMUM_PAYLOAD ff) :
  (FragmentedFrame.complete ff = true <->
   Forall (fun p => Packet.valid_ p = true) (FragmentedFrame.fragments_ ff)) /\
  0 <= FragmentedFrame.remaining_fragments_ ff
    <= Z.of_nat (length (FragmentedFrame.fragments_ ff)).
Proof.
  destruct (reachable_inv _ _ Hreach) as [_ [_ [Hrem _]]].
  pose proof (count_invalid_range (FragmentedFrame.fragments_ ff)) as Hrange.
  unfold FragmentedFrame.complete. rewrite Hrem. split; [| exact Hrange].
  split.
  - intros H. apply Z.eqb_eq in H. now apply count_invalid_zero.
  - intros H. apply Z.eqb_eq. now apply count_invalid_all_valid.
Qed.

Lemma complete_iff_all_valid_example :
  (FragmentedFrame.complete example_incoming = true <->
   Forall (fun p => Packet.valid_ p = true) (FragmentedFrame.fragments_ example_incoming)) /\
  0 <= FragmentedFrame.remaining_fragments_ example_incoming
    <= Z.of_nat (length (FragmentedFrame.fragments_ example_incoming)).
Proof.
  apply (complete_iff_all_valid 4 example_incoming). exact example_reachable.
Defined.




(** ** partial_frame as packets arrive *)

Lemma partial_frame_loop_appends fragments : forall ret,
  FragmentedFrame.partial_frame_loop fragments ret
  = ret ++ FragmentedFrame.partial_frame_loop fragments [].
Proof.
  induction fragments as [|f fragments IH]; intros ret; simpl.
  - now rewrite app_nil_r.
  - destruct (Packet.valid_ f); simpl; [| now rewrite app_nil_r].
    rewrite (IH (ret ++ Packet.payload_ f)), (IH (Packet.payload_ f)).
    now rewrite app_assoc.
Qed.

Lemma partial_frame_loop_fill fragments : forall i target p ret,
  nth_error fragments i = Some target ->
  Packet.valid_ target = false ->
  exists more,
    FragmentedFrame.partial_frame_loop (replace_nth i fragments p) ret
    = FragmentedFrame.partial_frame_loop fragments ret ++ more.
Proof.
  induction fragments as [|f fragments IH]; intros [|i] target p ret Hn Ht;
    simpl in Hn; try discriminate.
  - inversion Hn; subst f. simpl. rewrite Ht. simpl.
    destruct (Packet.valid_ p); simpl.
    + rewrite partial_frame_loop_appends, <- app_assoc. eexists. reflexivity.
    + exists []. now rewrite app_nil_r.
  - simpl. destruct (Packet.valid_ f); simpl.
    + now apply IH with target.
    + exists []. now rewrite app_nil_r.
Qed.

(** (X5) [partial_frame()] only grows: whatever the frame and the packet, the
    partial frame before a call of [add_packet] is a prefix of the partial
    frame after it. *)
Theorem partial_frame_grows (ff : FragmentedFrame.t) (p : Packet.t) :
  exists more,
    FragmentedFrame.partial_frame (snd (FragmentedFrame.add_packet p ff))
    = FragmentedFrame.partial_frame ff ++ more.
Proof.
  destruct (add_packetP p ff) as [e Hs | Hs Hn | target Hs Hn Ht | target Hs Hn Ht];
    cbn [snd]; try (exists []; now rewrite app_nil_r).
  unfold FragmentedFrame.partial_frame.
  cbn [FragmentedFrame.assign_slot FragmentedFrame.decrement_remaining
       FragmentedFrame.fragments_].
  now apply partial_frame_loop_fill with target.
Qed.

Lemma partial_frame_all_valid fragments :
  Forall (fun p => Packet.valid_ p = true) fragments ->
  FragmentedFrame.partial_frame_loop fragments [] = payloads fragments.
Proof.
  intros H.
  rewrite (partial_frame_loop_prefix fragments (length fragments) []).
  - now rewrite firstn_all.
  - now rewrite firstn_all.
  - intros p Hp. exfalso.
    assert (nth_error fragments (length fragments) = None) by (apply nth_error_None; lia).
    congruence.
Qed.



(** ** A packet that is not valid *)

Lemma count_invalid_replace_invalid fragments : forall i old p,
  nth_error fragments i = Some old ->
  Packet.valid_ old = false ->
  Packet.valid_ p = false ->
  count_invalid (replace_nth i fragments p) = count_invalid fragments.
Proof.
  intros i old p Hn Hold Hp. unfold count_invalid. f_equal.
  revert i Hn.
  induction fragments as [|f fragments IH]; intros [|i] Hn; simpl in Hn;
    try discriminate.
  - inversion Hn; subst. simpl. now rewrite Hold, Hp.
  - specialize (IH i Hn). simpl.
    destruct (Packet.valid_ f); simpl; lia.
Qed.

Lemma example_founded_reachable : reachable 4 example_founded.
Proof.
  apply reachable_incoming with (connection_id := 0) (packet := example_second_of_two);
    [| reflexivity].
  split; [reflexivity |].
  unfold Packet.well_typed, is_uint16, is_uint32. simpl. lia.
Qed.

(** (X7) [add_packet] does not look at [packet.valid()]: a packet that is not
    valid, passes the sanity check and names an invalid slot is stored and
    counted. The slot stays invalid while [remaining_fragments_] goes down by
    one, so after the call [remaining_fragments_] is one less than the number
    of invalid slots. *)
Theorem add_packet_counts_invalid_packet (MAXIMUM_PAYLOAD : Z) (ff : FragmentedFrame.t)
    (p target : Packet.t)
    (Hreach : reachable MAXIMUM_PAYLOAD ff)
    (Hinvalid : Packet.valid_ p = false)
    (Hcheck : FragmentedFrame.sanity_check ff p = Ok tt)
    (Hslot : FragmentedFrame.slot (Packet.fragment_no_ p) ff = Ok target)
    (Htarget : Packet.valid_ target = false) :
  fst (FragmentedFrame.add_packet p ff) = Ok tt /\
  FragmentedFrame.slot (Packet.fragment_no_ p) (snd (FragmentedFrame.add_packet p ff)) = Ok p /\
  FragmentedFrame.remaining_fragments_ (snd (FragmentedFrame.add_packet p ff))
    = FragmentedFrame.remaining_fragments_ ff - 1 /\
  count_invalid (FragmentedFrame.fragments_ (snd (FragmentedFrame.add_packet p ff)))
    = count_invalid (FragmentedFrame.fragments_ ff) /\
  FragmentedFrame.remaining_fragments_ (snd (FragmentedFrame.add_packet p ff))
    = count_invalid (FragmentedFrame.fragments_ (snd (FragmentedFrame.add_packet p ff))) - 1.
Proof.
  destruct (reachable_inv _ _ Hreach) as [Hlen [Hfits [Hrem _]]].
  apply slot_ok_iff in Hslot.
  pose proof (count_invalid_range (FragmentedFrame.fragments_ ff)) as Hrange.
  assert (Hpos : 0 < count_invalid (FragmentedFrame.fragments_ ff)).
  { unfold count_invalid.
    assert (Hin : In target (filter (fun q => negb (Packet.valid_ q))
                                    (FragmentedFrame.fragments_ ff))).
    { apply filter_In. split; [eapply nth_error_In; eassumption | now rewrite Htarget]. }
    destruct (filter _ _); [contradiction | simpl; lia]. }
  destruct (add_packetP p ff) as [e Hs | Hs Hn | q Hs Hn Ht | q Hs Hn Ht];
    try congruence.
  cbn [fst snd FragmentedFrame.assign_slot FragmentedFrame.decrement_remaining
       FragmentedFrame.remaining_fragments_ FragmentedFrame.fragments_].
  rewrite (count_invalid_replace_invalid _ _ _ p Hn Ht Hinvalid).
  assert (Hdec : uint32 (FragmentedFrame.remaining_fragments_ ff - 1)
                 = FragmentedFrame.remaining_fragments_ ff - 1).
  { unfold uint32. apply Z.mod_small. lia. }
  rewrite Hdec. split; [reflexivity |]. split.
  - apply slot_ok_iff. simpl.
    apply nth_error_replace_nth_same. apply nth_error_Some. congruence.
  - split; [reflexivity |]. split; [reflexivity | lia].
Qed.

Lemma add_packet_counts_invalid_packet_example :
  fst (FragmentedFrame.add_packet example_unpopulated example_founded) = Ok tt /\
  FragmentedFrame.slot (Packet.fragment_no_ example_unpopulated)
    (snd (FragmentedFrame.add_packet example_unpopulated example_founded))
    = Ok example_unpopulated /\
  FragmentedFrame.remaining_fragments_
    (snd (FragmentedFrame.add_packet example_unpopulated example_founded))
    = FragmentedFrame.remaining_fragments_ example_founded - 1 /\
  count_invalid (FragmentedFrame.fragments_
    (snd (FragmentedFrame.add_packet example_unpopulated example_founded)))
    = count_invalid (FragmentedFrame.fragments_ example_founded) /\
  FragmentedFrame.remaining_fragments_
    (snd (FragmentedFrame.add_packet example_unpopulated example_founded))
    = count_invalid (FragmentedFrame.fragments_
        (snd (FragmentedFrame.add_packet example_unpopulated example_founded))) - 1.
Proof.
  apply (add_packet_counts_invalid_packet 4 example_founded example_unpopulated Packet.empty);
    [exact example_founded_reachable | reflexivity | reflexivity | reflexivity | reflexivity].
Defined.

(** ** The incoming constructor *)

(** (X8) Founding an incoming frame with a packet whose members are in the range
    of their types: a packet of another connection is refused with a
    connection_id mismatch; one whose fragment_no is not below its
    fragments_in_this_frame (the default-constructed packet among them) is
    refused as out of range; every other packet founds the frame of its
    frame_no and fragments_in_this_frame, with that many slots, all empty but
    its own, and one fragment fewer remaining. *)
Theorem incoming_frame_founding (connection_id : Z) (p : Packet.t)
    (Htyped : Packet.well_typed p) :
  (Packet.connection_id_ p <> connection_id ->
   FragmentedFrame.incoming connection_id p = Throw connection_id_mismatch) /\
  (Packet.connection_id_ p = connection_id ->
   Packet.fragments_in_this_frame_ p <= Packet.fragment_no_ p ->
   FragmentedFrame.incoming connection_id p = Throw fragment_no_out_of_range) /\
  (Packet.connection_id_ p = connection_id ->
   Packet.fragment_no_ p < Packet.fragments_in_this_frame_ p ->
   FragmentedFrame.incoming connection_id p
   = Ok {| FragmentedFrame.connection_id_ := connection_id;
           FragmentedFrame.frame_no_ := Packet.frame_no_ p;
           FragmentedFrame.fragments_in_this_frame_ := Packet.fragments_in_this_frame_ p;
           FragmentedFrame.fragments_ :=
             replace_nth (Z.to_nat (Packet.fragment_no_ p))
               (repeat Packet.empty (Z.to_nat (Packet.fragments_in_this_frame_ p))) p;
           FragmentedFrame.remaining_fragments_ := Packet.fragments_in_this_frame_ p - 1 |}).
Proof.
  destruct Htyped as [_ [_ [[Hno0 _] [[Hn0 Hn16] _]]]].
  unfold FragmentedFrame.incoming.
  set (ff0 := {| FragmentedFrame.connection_id_ := connection_id;
                 FragmentedFrame.frame_no_ := Packet.frame_no_ p;
                 FragmentedFrame.fragments_in_this_frame_ := Packet.fragments_in_this_frame_ p;
                 FragmentedFrame.fragments_ :=
                   repeat Packet.empty (Z.to_nat (Packet.fragments_in_this_frame_ p));
                 FragmentedFrame.remaining_fragments_ := Packet.fragments_in_this_frame_ p |}).
  split; [| split]; unfold bindM at 1, read at 1.
  - intros Hcid. unfold FragmentedFrame.sanity_check, throw_if, ff0.
    cbn [FragmentedFrame.connection_id_].
    apply Z.eqb_neq in Hcid. now rewrite Hcid.
  - intros Hcid Hle. unfold FragmentedFrame.sanity_check, throw_if, ff0.
    cbn [FragmentedFrame.connection_id_ FragmentedFrame.frame_no_
         FragmentedFrame.fragments_in_this_frame_].
    apply Z.eqb_eq in Hcid. rewrite Hcid, !Z.eqb_refl.
    apply Z.leb_le in Hle. now rewrite Hle.
  - intros Hcid Hlt.
    assert (Hcheck : FragmentedFrame.sanity_check ff0 p = Ok tt).
    { apply sanity_check_ok. unfold ff0. cbn [FragmentedFrame.connection_id_
        FragmentedFrame.frame_no_ FragmentedFrame.fragments_in_this_frame_]. auto. }
    rewrite Hcheck.
    assert (Hslot : nth_error (FragmentedFrame.fragments_ ff0)
                      (Z.to_nat (Packet.fragment_no_ p)) = Some Packet.empty).
    { unfold ff0. cbn [FragmentedFrame.fragments_]. apply nth_error_repeat. lia. }
    destruct (add_packetP p ff0) as [e Hs | Hs Hn | target Hs Hn Ht | target Hs Hn Ht];
      try congruence.
    + rewrite Hslot in Hn. inversion Hn; subst target. discriminate.
    + unfold FragmentedFrame.assign_slot, FragmentedFrame.decrement_remaining, ff0.
      cbn [FragmentedFrame.connection_id_ FragmentedFrame.frame_no_
           FragmentedFrame.fragments_in_this_frame_ FragmentedFrame.fragments_
           FragmentedFrame.remaining_fragments_].
      do 2 f_equal. unfold uint32. apply Z.mod_small. lia.
Qed.

(** ** The outgoing constructor at its limits *)

(** (X9) For an empty buffer the splitting loop appends no packet, and the
    constructor goes on to call [back()] on the empty vector: no frame is
    built, whatever the payload cap. *)
Theorem outgoing_of_empty_buffer (MAXIMUM_PAYLOAD connection_id frame_no
    time_to_next_frame : Z) (fuel : nat) :
  FragmentedFrame.outgoing MAXIMUM_PAYLOAD (S fuel) connection_id frame_no
    time_to_next_frame [] = Some (Throw undefined_behaviour) /\
  forall fuel' ff,
    FragmentedFrame.outgoing MAXIMUM_PAYLOAD fuel' connection_id frame_no
      time_to_next_frame [] <> Some (Ok ff).
Proof.
  split; [reflexivity |].
  intros [|fuel'] ff; discriminate.
Qed.

(** (X10) Whatever the payload cap and the buffer, a frame that the outgoing
    constructor returns has between 1 and 65535 slots, as many as its
    [fragments_in_this_frame_]; every slot is valid and holds the packet
    numbered with its own index, of the frame's connection_id, frame_no and
    fragment count; nothing remains, and the frame is complete. *)
Theorem outgoing_frame_shape (MAXIMUM_PAYLOAD connection_id frame_no time_to_next_frame : Z)
    (whole_frame : list byte) (fuel : nat) (ff : FragmentedFrame.t)
    (Hreturns : FragmentedFrame.outgoing MAXIMUM_PAYLOAD fuel connection_id frame_no
                  time_to_next_frame whole_frame = Some (Ok ff)) :
  1 <= FragmentedFrame.fragments_in_this_frame_ ff <= 65535 /\
  Z.of_nat (length (FragmentedFrame.fragments_ ff))
    = FragmentedFrame.fragments_in_this_frame_ ff /\
  FragmentedFrame.connection_id_ ff = connection_id /\
  FragmentedFrame.frame_no_ ff = frame_no /\
  FragmentedFrame.complete ff = true /\
  forall i p, nth_error (FragmentedFrame.fragments_ ff) i = Some p ->
    Packet.valid_ p = true /\
    Packet.fragment_no_ p = Z.of_nat i /\
    Packet.fragments_in_this_frame_ p = FragmentedFrame.fragments_in_this_frame_ ff /\
    Packet.connection_id_ p = connection_id /\
    Packet.frame_no_ p = frame_no.
Proof.
  destruct (outgoing_inv _ _ _ _ _ _ _ Hreturns)
    as [[Hlen [Hfits [_ Hslots]]] [Hvalid [Hrem Hpos]]].
  assert (Hid : FragmentedFrame.connection_id_ ff = connection_id /\
                FragmentedFrame.frame_no_ ff = frame_no).
  { unfold FragmentedFrame.outgoing in Hreturns.
    destruct (FragmentedFrame.split_loop _ _ _ _ _ _ _ _) as [[r0|]|]; try discriminate.
    cbn [bind] in Hreturns.
    destruct (FragmentedFrame.set_time_to_next_of_back _ _) as [r1|]; try discriminate.
    cbn [bind] in Hreturns.
    destruct (mapM _ r1) as [r2|]; try discriminate.
    cbn [bind] in Hreturns. inversion Hreturns. split; reflexivity. }
  destruct Hid as [Hcid Hfno].
  split; [lia |]. split; [exact Hlen |]. split; [exact Hcid |]. split; [exact Hfno |].
  split; [unfold FragmentedFrame.complete; now rewrite Hrem |].
  intros i p Hi.
  assert (Hp : Packet.valid_ p = true).
  { rewrite Forall_forall in Hvalid. apply Hvalid. eapply nth_error_In; eassumption. }
  destruct (Hslots i p Hi Hp) as [Hno [Hn [Hc Hf]]].
  repeat split; congruence.
Qed.

Lemma outgoing_frame_shape_example :
  1 <= FragmentedFrame.fragments_in_this_frame_ example_outgoing <= 65535 /\
  Z.of_nat (length (FragmentedFrame.fragments_ example_outgoing))
    = FragmentedFrame.fragments_in_this_frame_ example_outgoing /\
  FragmentedFrame.connection_id_ example_outgoing = 7 /\
  FragmentedFrame.frame_no_ example_outgoing = 9 /\
  FragmentedFrame.complete example_outgoing = true /\
  forall i p, nth_error (FragmentedFrame.fragments_ example_outgoing) i = Some p ->
    Packet.valid_ p = true /\
    Packet.fragment_no_ p = Z.of_nat i /\
    Packet.fragments_in_this_frame_ p
      = FragmentedFrame.fragments_in_this_frame_ example_outgoing /\
    Packet.connection_id_ p = 7 /\
    Packet.frame_no_ p = 9.
Proof.
  apply (outgoing_frame_shape 4 7 9 55 example_buffer 4 example_outgoing).
  reflexivity.
Defined.

Lemma incoming_frame_founding_example :
  FragmentedFrame.incoming 0 example_second_of_two = Ok example_founded.
Proof.
  apply (incoming_frame_founding 0 example_second_of_two).
  - unfold Packet.well_typed, is_uint16, is_uint32. simpl. lia.
  - reflexivity.
  - simpl. lia.
Defined.

(** ** The frame the outgoing constructor returns *)

Lemma split_loop_more_fuel C B cid fno : forall fuel extra f next acc r,
  FragmentedFrame.split_loop C fuel B cid fno f next acc = Some r ->
  FragmentedFrame.split_loop C (fuel + extra) B cid fno f next acc = Some r.
Proof.
  induction fuel as [|fuel IH]; intros extra f next acc r H; [discriminate |].
  cbn [FragmentedFrame.split_loop Nat.add] in *.
  destruct (next <? Z.of_nat (length B)); [| exact H].
  destruct (Packet.outgoing C B cid fno f 0) as [[p next']|e]; [| exact H].
  now apply IH.
Qed.

Lemma outgoing_more_fuel C fuel extra cid fno ttn B r :
  FragmentedFrame.outgoing C fuel cid fno ttn B = Some r ->
  FragmentedFrame.outgoing C (fuel + extra) cid fno ttn B = Some r.
Proof.
  unfold FragmentedFrame.outgoing.
  destruct (FragmentedFrame.split_loop C fuel B cid fno 0 0 []) as [r0|] eqn:Hloop;
    [| discriminate].
  now rewrite (split_loop_more_fuel _ _ _ _ _ extra _ _ _ _ Hloop).
Qed.

Section OutgoingFrame.

Variables (MAXIMUM_PAYLOAD connection_id frame_no time_to_next_frame : Z).
Variable whole_frame : list byte.
Variables (fuel : nat) (out : FragmentedFrame.t).

Hypothesis frame_not_empty : whole_frame <> [].
Hypothesis cap_positive : 1 <= MAXIMUM_PAYLOAD.
Hypothesis size_fits_size_t : Z.of_nat (length whole_frame) < 2 ^ 64.
Hypothesis count_fits_uint16 : Z.of_nat (length whole_frame) <= 65535 * MAXIMUM_PAYLOAD.
Hypothesis returns :
  FragmentedFrame.outgoing MAXIMUM_PAYLOAD fuel connection_id frame_no
    time_to_next_frame whole_frame = Some (Ok out).

Let n : nat := Z.to_nat (ceil_div (Z.of_nat (length whole_frame)) MAXIMUM_PAYLOAD).
Let final : nat -> Packet.t :=
  fragment_of MAXIMUM_PAYLOAD connection_id frame_no time_to_next_frame whole_frame n.

Lemma outgoing_closed_form :
  out = {| FragmentedFrame.connection_id_ := connection_id;
           FragmentedFrame.frame_no_ := frame_no;
           FragmentedFrame.fragments_in_this_frame_ := Z.of_nat n;
           FragmentedFrame.fragments_ := map final (seq 0 n);
           FragmentedFrame.remaining_fragments_ := 0 |}.
Proof.
  pose proof (outgoing_more_fuel _ _ (S n) _ _ _ _ _ returns) as Hmore.
  rewrite (outgoing_returns MAXIMUM_PAYLOAD connection_id frame_no time_to_next_frame
             whole_frame frame_not_empty cap_positive size_fits_size_t count_fits_uint16)
    in Hmore by (fold n; lia).
  now inversion Hmore.
Qed.

Lemma outgoing_count_bounds :
  MAXIMUM_PAYLOAD * (Z.of_nat n - 1) < Z.of_nat (length whole_frame)
    <= MAXIMUM_PAYLOAD * Z.of_nat n /\
  (0 < n)%nat /\ Z.of_nat n < 2 ^ 16.
Proof.
  destruct (count_bounds MAXIMUM_PAYLOAD connection_id frame_no time_to_next_frame
              whole_frame frame_not_empty cap_positive size_fits_size_t count_fits_uint16)
    as [H1 [H2 [H3 _]]].
  fold n in H1, H2, H3. auto.
Qed.

Lemma outgoing_payloads : payloads (FragmentedFrame.fragments_ out) = whole_frame.
Proof.
  destruct outgoing_count_bounds as [[Hleast Henough] _].
  rewrite outgoing_closed_form. cbn [FragmentedFrame.fragments_].
  now apply payloads_of_fragments.
Qed.

End OutgoingFrame.

(** (X11) What each fragment of an outgoing frame carries: the payload of slot [i]
    is the bytes of the buffer from [i * MAXIMUM_PAYLOAD] on, at most
    [MAXIMUM_PAYLOAD] of them and at least one; the last fragment carries
    [time_to_next_frame], every other fragment a time_to_next of 0. *)
Theorem outgoing_fragment_contents
    (MAXIMUM_PAYLOAD connection_id frame_no time_to_next_frame : Z)
    (whole_frame : list byte) (fuel : nat) (out : FragmentedFrame.t)
    (i : nat) (p : Packet.t)
    (Hnot_empty : whole_frame <> [])
    (Hcap : 1 <= MAXIMUM_PAYLOAD)
    (Hsize : Z.of_nat (length whole_frame) < 2 ^ 64)
    (Hcount : Z.of_nat (length whole_frame) <= 65535 * MAXIMUM_PAYLOAD)
    (Hreturns : FragmentedFrame.outgoing MAXIMUM_PAYLOAD fuel connection_id frame_no
                  time_to_next_frame whole_frame = Some (Ok out))
    (Hslot : nth_error (FragmentedFrame.fragments_ out) i = Some p) :
  Packet.payload_ p
    = firstn (Z.to_nat MAXIMUM_PAYLOAD)
             (skipn (Z.to_nat (MAXIMUM_PAYLOAD * Z.of_nat i)) whole_frame) /\
  1 <= Z.of_nat (length (Packet.payload_ p)) <= MAXIMUM_PAYLOAD /\
  Packet.time_to_next_ p
    = (if (S i =? length (FragmentedFrame.fragments_ out))%nat
       then time_to_next_frame else 0).
Proof.
  set (n := Z.to_nat (ceil_div (Z.of_nat (length whole_frame)) MAXIMUM_PAYLOAD)).
  destruct (outgoing_count_bounds MAXIMUM_PAYLOAD connection_id frame_no
              time_to_next_frame whole_frame Hnot_empty Hcap Hsize Hcount)
    as [[Hleast Henough] [Hpos Hfits]].
  fold n in Hleast, Henough, Hpos, Hfits.
  rewrite (outgoing_closed_form _ _ _ _ _ _ _ Hnot_empty Hcap Hsize Hcount Hreturns)
    in Hslot |- *.
  cbn [FragmentedFrame.fragments_] in *. fold n in Hslot |- *.
  rewrite length_map, length_seq.
  rewrite nth_error_map_seq in Hslot.
  destruct (Nat.ltb_spec i n) as [Hi |]; [| discriminate].
  inversion Hslot; subst p; clear Hslot.
  pose proof (fragment_payload_length MAXIMUM_PAYLOAD connection_id frame_no
                time_to_next_frame whole_frame n Hcap Hleast Henough i Hi) as Hlen.
  assert (Hfirst : 0 <= MAXIMUM_PAYLOAD * Z.of_nat i < Z.of_nat (length whole_frame)) by nia.
  split; [| split; [rewrite Hlen; lia | reflexivity]].
  unfold fragment_of. cbn [Packet.payload_].
  destruct (Z.le_gt_cases MAXIMUM_PAYLOAD
              (Z.of_nat (length whole_frame) - MAXIMUM_PAYLOAD * Z.of_nat i)) as [Hfull | Hlast].
  - now rewrite Z.min_r.
  - rewrite Z.min_l by lia.
    rewrite !firstn_all2; [reflexivity | |]; rewrite length_skipn; lia.
Qed.

Lemma outgoing_fragment_contents_example :
  Packet.payload_ (example_fragment 2)
    = firstn (Z.to_nat 4) (skipn (Z.to_nat (4 * Z.of_nat 2)) example_buffer) /\
  1 <= Z.of_nat (length (Packet.payload_ (example_fragment 2))) <= 4 /\
  Packet.time_to_next_ (example_fragment 2)
    = (if (3 =? length (FragmentedFrame.fragments_ example_outgoing))%nat
       then 55 else 0).
Proof.
  apply (outgoing_fragment_contents 4 7 9 55 example_buffer 4 example_outgoing 2
           (example_fragment 2));
    [discriminate | lia | simpl; lia | simpl; lia | reflexivity | reflexivity].
Defined.

(** (X12) An outgoing frame holds its buffer: without any packet added, [frame()]
    and [partial_frame()] both return the buffer the frame was built from. *)
Theorem outgoing_frame_holds_buffer
    (MAXIMUM_PAYLOAD connection_id frame_no time_to_next_frame : Z)
    (whole_frame : list byte) (fuel : nat) (out : FragmentedFrame.t)
    (Hnot_empty : whole_frame <> [])
    (Hcap : 1 <= MAXIMUM_PAYLOAD)
    (Hsize : Z.of_nat (length whole_frame) < 2 ^ 64)
    (Hcount : Z.of_nat (length whole_frame) <= 65535 * MAXIMUM_PAYLOAD)
    (Hreturns : FragmentedFrame.outgoing MAXIMUM_PAYLOAD fuel connection_id frame_no
                  time_to_next_frame whole_frame = Some (Ok out)) :
  FragmentedFrame.frame out = Ok whole_frame /\
  FragmentedFrame.partial_frame out = whole_frame.
Proof.
  pose proof (outgoing_payloads _ _ _ _ _ _ _ Hnot_empty Hcap Hsize Hcount Hreturns)
    as Hpayloads.
  destruct (outgoing_inv _ _ _ _ _ _ _ Hreturns) as [_ [Hvalid [Hrem _]]].
  split.
  - rewrite frame_complete; [now rewrite Hpayloads |].
    unfold FragmentedFrame.complete. now rewrite Hrem.
  - unfold FragmentedFrame.partial_frame.
    now rewrite partial_frame_all_valid.
Qed.

Lemma outgoing_frame_holds_buffer_example :
  FragmentedFrame.frame example_outgoing = Ok example_buffer /\
  FragmentedFrame.partial_frame example_outgoing = example_buffer.
Proof.
  apply (outgoing_frame_holds_buffer 4 7 9 55 example_buffer 4 example_outgoing);
    [discriminate | lia | simpl; lia | simpl; lia | reflexivity].
Defined.

(** ** Sending an outgoing frame *)

Lemma mapM_Forall2 {A B} (f : A -> result B) : forall l r,
  mapM f l = Ok r -> Forall2 (fun a b => f a = Ok b) l r.
Proof.
  induction l as [|a l IH]; intros r H; simpl in H.
  - inversion H. constructor.
  - destruct (f a) as [b|] eqn:Hb; [| discriminate]. cbn [bind] in H.
    destruct (mapM f l) as [bs|]; [| discriminate]. cbn [bind] in H.
    inversion H; subst. constructor; auto.
Qed.

Lemma Forall2_mapM {A B} (f : A -> result B) : forall l r,
  Forall2 (fun a b => f a = Ok b) l r -> mapM f l = Ok r.
Proof.
  induction 1 as [|a b l r Hab _ IH]; simpl; [reflexivity |].
  now rewrite Hab, IH.
Qed.

Lemma Forall2_Forall_r {A B} (R : A -> B -> Prop) (P : A -> Prop) (Q : B -> Prop) l r :
  Forall2 R l r -> Forall P l -> (forall a b, R a b -> P a -> Q b) -> Forall Q r.
Proof.
  intros H HP HQ. induction H as [|a b l r Hab _ IH]; [constructor |].
  inversion HP; subst. constructor; eauto.
Qed.

(** A serialised packet is 14 bytes of header followed by the payload. *)
Lemma to_string_layout p datagram :
  Packet.to_string p = Ok datagram ->
  length datagram = (14 + length (Packet.payload_ p))%nat /\
  datagram_payload datagram = Packet.payload_ p.
Proof.
  unfold Packet.to_string, assert.
  destruct (0 <? Packet.fragments_in_this_frame_ p); [| discriminate].
  cbn [bind]. intros H. inversion H; subst datagram; clear H.
  split; [apply wire_length | apply wire_payload].
Qed.

(** Parsing what [to_string] wrote gives the packet back. *)
Lemma incoming_of_to_string p datagram :
  Packet.well_typed p -> Packet.valid_ p = true ->
  Packet.fragment_no_ p < Packet.fragments_in_this_frame_ p ->
  Packet.payload_ p <> [] ->
  Packet.to_string p = Ok datagram ->
  Packet.incoming datagram = Ok p.
Proof.
  intros [Hc [Hf [Hn [Ht Hx]]]] Hvalid Hno Hpayload Hstring.
  enough (H : match Packet.to_string p with
              | Ok d => Packet.incoming d = Ok p
              | Throw _ => True
              end) by (now rewrite Hstring in H).
  clear Hstring. unfold Packet.to_string, assert.
  destruct (0 <? Packet.fragments_in_this_frame_ p); [| exact I].
  cbn [bind].
  assert (0 < length (Packet.payload_ p))%nat.
  { destruct (Packet.payload_ p); [contradiction | simpl; lia]. }
  rewrite incoming_long by (rewrite wire_length; lia).
  match goal with
  | |- context [le_at 8 2 ?s] =>
    change (le_at 8 2 s) with (Packet.fragments_in_this_frame_ (parsed s));
    change (le_at 6 2 s) with (Packet.fragment_no_ (parsed s))
  end.
  rewrite wire_parsed, wire_payload by assumption.
  cbn [Packet.fragment_no_ Packet.fragments_in_this_frame_].
  destruct (Z.leb_spec (Packet.fragments_in_this_frame_ p) (Packet.fragment_no_ p)); [lia |].
  destruct (Z.eqb_spec (Z.of_nat (length (Packet.payload_ p))) 0); [lia |].
  destruct p. cbn in Hvalid. now subst.
Qed.

Lemma datagram_payloads fragments datagrams :
  Forall2 (fun p d => Packet.to_string p = Ok d) fragments datagrams ->
  concat (map datagram_payload datagrams) = payloads fragments.
Proof.
  unfold payloads.
  induction 1 as [|p d fragments datagrams Hpd _ IH]; simpl; [reflexivity |].
  destruct (to_string_layout p d Hpd) as [_ Hpayload].
  now rewrite Hpayload, IH.
Qed.

(** (X13) [send] of an outgoing frame does not throw: it hands the socket one
    datagram per fragment, after those already sent. Each datagram is 14 bytes
    of header and between 1 and [MAXIMUM_PAYLOAD] bytes of payload, and the
    payloads of the datagrams, in the order sent, make up the buffer. *)
Theorem outgoing_send
    (MAXIMUM_PAYLOAD connection_id frame_no time_to_next_frame : Z)
    (whole_frame : list byte) (fuel : nat) (out : FragmentedFrame.t)
    (socket : UDPSocket)
    (Hnot_empty : whole_frame <> [])
    (Hcap : 1 <= MAXIMUM_PAYLOAD)
    (Hsize : Z.of_nat (length whole_frame) < 2 ^ 64)
    (Hcount : Z.of_nat (length whole_frame) <= 65535 * MAXIMUM_PAYLOAD)
    (Hreturns : FragmentedFrame.outgoing MAXIMUM_PAYLOAD fuel connection_id frame_no
                  time_to_next_frame whole_frame = Some (Ok out)) :
  exists datagrams,
    FragmentedFrame.send out socket = (Ok tt, socket ++ datagrams) /\
    length datagrams = length (FragmentedFrame.fragments_ out) /\
    Forall (fun d => 15 <= Z.of_nat (length d) <= 14 + MAXIMUM_PAYLOAD) datagrams /\
    concat (map datagram_payload datagrams) = whole_frame.
Proof.
  set (n := Z.to_nat (ceil_div (Z.of_nat (length whole_frame)) MAXIMUM_PAYLOAD)).
  destruct (outgoing_count_bounds MAXIMUM_PAYLOAD connection_id frame_no
              time_to_next_frame whole_frame Hnot_empty Hcap Hsize Hcount)
    as [[Hleast Henough] [Hpos Hfits]].
  fold n in Hleast, Henough, Hpos, Hfits.
  pose proof (outgoing_payloads _ _ _ _ _ _ _ Hnot_empty Hcap Hsize Hcount Hreturns)
    as Hpayloads.
  pose proof (outgoing_closed_form _ _ _ _ _ _ _ Hnot_empty Hcap Hsize Hcount Hreturns)
    as Hout. fold n in Hout.
  destruct (to_string_total (FragmentedFrame.fragments_ out)) as [datagrams [Hd Hlen]].
  { rewrite Hout. cbn [FragmentedFrame.fragments_]. apply Forall_forall.
    intros p Hp. apply in_map_iff in Hp. destruct Hp as [k [<- _]].
    cbn [fragment_of Packet.fragments_in_this_frame_]. lia. }
  pose proof (mapM_Forall2 _ _ _ Hd) as Hall.
  exists datagrams. split; [| split; [exact Hlen | split]].
  - rewrite send_guard_passed; [now apply send_loop_ok |].
    rewrite Hout. cbn [FragmentedFrame.fragments_ FragmentedFrame.fragments_in_this_frame_].
    now rewrite length_map, length_seq.
  - apply (Forall2_Forall_r _
             (fun p => 1 <= Z.of_nat (length (Packet.payload_ p)) <= MAXIMUM_PAYLOAD)
             _ _ _ Hall).
    + rewrite Hout. cbn [FragmentedFrame.fragments_]. apply Forall_forall.
      intros p Hp. apply in_map_iff in Hp. destruct Hp as [k [<- Hk]].
      apply in_seq in Hk.
      rewrite (fragment_payload_length MAXIMUM_PAYLOAD connection_id frame_no
                 time_to_next_frame whole_frame n Hcap Hleast Henough k) by lia.
      assert (0 <= MAXIMUM_PAYLOAD * Z.of_nat k < Z.of_nat (length whole_frame)) by nia.
      lia.
    + intros p d Hpd [Hlo Hhi].
      destruct (to_string_layout p d Hpd) as [Hlayout _]. rewrite Hlayout. lia.
  - now rewrite (datagram_payloads _ _ Hall).
Qed.

Lemma outgoing_send_example :
  exists datagrams,
    FragmentedFrame.send example_outgoing [] = (Ok tt, [] ++ datagrams) /\
    length datagrams = length (FragmentedFrame.fragments_ example_outgoing) /\
    Forall (fun d => 15 <= Z.of_nat (length d) <= 14 + 4) datagrams /\
    concat (map datagram_payload datagrams) = example_buffer.
Proof.
  apply (outgoing_send 4 7 9 55 example_buffer 4 example_outgoing []);
    [discriminate | lia | simpl; lia | simpl; lia | reflexivity].
Defined.

(** ** From the sender's socket to the receiver's frame *)

Lemma Forall2_flip_with {A B} (R : A -> B -> Prop) (R' : B -> A -> Prop)
    (P : A -> Prop) l r :
  Forall2 R l r -> Forall P l -> (forall a b, P a -> R a b -> R' b a) -> Forall2 R' r l.
Proof.
  intros H HP HR. induction H as [|a b l r Hab _ IH]; [constructor |].
  inversion HP; subst. constructor; eauto.
Qed.

(** (X14) Over the wire: [send] of an outgoing frame hands the socket datagrams
    such that, in whatever order they are delivered, parsing each and feeding
    the packets to a receiver (the first founds the incoming frame, the others
    are added) gives a complete frame whose [frame()] is the sender's
    buffer. *)
Theorem wire_round_trip
    (MAXIMUM_PAYLOAD connection_id frame_no time_to_next_frame : Z)
    (whole_frame : list byte) (fuel : nat) (out : FragmentedFrame.t)
    (socket : UDPSocket)
    (Hnot_empty : whole_frame <> [])
    (Hcap : 1 <= MAXIMUM_PAYLOAD)
    (Hsize : Z.of_nat (length whole_frame) < 2 ^ 64)
    (Hcount : Z.of_nat (length whole_frame) <= 65535 * MAXIMUM_PAYLOAD)
    (Hconnection : is_uint16 connection_id)
    (Hframe_no : is_uint32 frame_no)
    (Htime : is_uint32 time_to_next_frame)
    (Hreturns : FragmentedFrame.outgoing MAXIMUM_PAYLOAD fuel connection_id frame_no
                  time_to_next_frame whole_frame = Some (Ok out)) :
  exists datagrams,
    FragmentedFrame.send out socket = (Ok tt, socket ++ datagrams) /\
    mapM Packet.incoming datagrams = Ok (FragmentedFrame.fragments_ out) /\
    forall first others,
      Permutation (first :: others) datagrams ->
      exists p ps ff,
        Packet.incoming first = Ok p /\
        mapM Packet.incoming others = Ok ps /\
        receive connection_id p ps = Ok ff /\
        FragmentedFrame.complete ff = true /\
        FragmentedFrame.frame ff = Ok whole_frame.
Proof.
  set (n := Z.to_nat (ceil_div (Z.of_nat (length whole_frame)) MAXIMUM_PAYLOAD)).
  set (final := fragment_of MAXIMUM_PAYLOAD connection_id frame_no time_to_next_frame
                  whole_frame n).
  destruct (outgoing_count_bounds MAXIMUM_PAYLOAD connection_id frame_no
              time_to_next_frame whole_frame Hnot_empty Hcap Hsize Hcount)
    as [[Hleast Henough] [Hpos Hfits]].
  fold n in Hleast, Henough, Hpos, Hfits.
  pose proof (outgoing_closed_form _ _ _ _ _ _ _ Hnot_empty Hcap Hsize Hcount Hreturns)
    as Hout. fold n in Hout. fold final in Hout.
  assert (Hslots : FragmentedFrame.fragments_ out = map final (seq 0 n))
    by (now rewrite Hout).
  destruct (to_string_total (FragmentedFrame.fragments_ out)) as [datagrams [Hd Hlen]].
  { rewrite Hslots. apply Forall_forall.
    intros p Hp. apply in_map_iff in Hp. destruct Hp as [k [<- _]].
    cbn [final fragment_of Packet.fragments_in_this_frame_]. lia. }
  pose proof (mapM_Forall2 _ _ _ Hd) as Hall.
  assert (Hparse : Forall2 (fun d p => Packet.incoming d = Ok p) datagrams
                           (FragmentedFrame.fragments_ out)).
  { apply (Forall2_flip_with _ _
             (fun p => Packet.well_typed p /\ Packet.valid_ p = true /\
                       Packet.fragment_no_ p < Packet.fragments_in_this_frame_ p /\
                       Packet.payload_ p <> []) _ _ Hall).
    - rewrite Hslots. apply Forall_forall.
      intros p Hp. apply in_map_iff in Hp. destruct Hp as [k [<- Hk]].
      apply in_seq in Hk.
      split; [| split; [reflexivity | split]].
      + unfold Packet.well_typed, is_uint16, is_uint32 in *.
        cbn [final fragment_of Packet.connection_id_ Packet.frame_no_ Packet.fragment_no_
             Packet.fragments_in_this_frame_ Packet.time_to_next_].
        destruct (S k =? n)%nat; lia.
      + cbn [final fragment_of Packet.fragment_no_ Packet.fragments_in_this_frame_]. lia.
      + apply fragment_payload_not_empty; try assumption. lia.
    - intros p d [Htyped [Hvalid [Hno Hpayload]]] Hpd.
      now apply incoming_of_to_string. }
  exists datagrams. split; [| split].
  - rewrite send_guard_passed; [now apply send_loop_ok |].
    rewrite Hout. cbn [FragmentedFrame.fragments_ FragmentedFrame.fragments_in_this_frame_].
    now rewrite length_map, length_seq.
  - now apply Forall2_mapM.
  - intros first others Hperm.
    destruct (Permutation_Forall2 (Permutation_sym Hperm) Hparse)
      as [packets [Hpackets Hparsed]].
    inversion Hparsed as [|d p ds ps Hfirst Hothers]; subst.
    rewrite Hslots in Hpackets.
    destruct (receive_all connection_id frame_no n final) with (first := p) (others := ps)
      as [ff [Hreceive [Hff Hcomplete]]];
      try reflexivity; try assumption.
    { now apply Permutation_sym. }
    exists p, ps, ff.
    split; [exact Hfirst |]. split; [now apply Forall2_mapM |].
    split; [exact Hreceive |]. split; [exact Hcomplete |].
    rewrite (frame_complete ff Hcomplete), Hff. f_equal.
    now apply payloads_of_fragments.
Qed.

Lemma wire_round_trip_example :
  exists datagrams,
    FragmentedFrame.send example_outgoing [] = (Ok tt, [] ++ datagrams) /\
    mapM Packet.incoming datagrams = Ok (FragmentedFrame.fragments_ example_outgoing) /\
    forall first others,
      Permutation (first :: others) datagrams ->
      exists p ps ff,
        Packet.incoming first = Ok p /\
        mapM Packet.incoming others = Ok ps /\
        receive 7 p ps = Ok ff /\
        FragmentedFrame.complete ff = true /\
        FragmentedFrame.frame ff = Ok example_buffer.
Proof.
  apply (wire_round_trip 4 7 9 55 example_buffer 4 example_outgoing []);
    try (unfold is_uint16, is_uint32; lia);
    [discriminate | simpl; lia | simpl; lia | reflexivity].
Defined.

(** ** A frame of 65536 fragments or more *)

Lemma set_fragments_in_this_frame_zero fragments :
  fragments <> [] ->
  Forall (fun p => 0 <= Packet.fragment_no_ p) fragments ->
  mapM (Packet.set_fragments_in_this_frame 0) fragments = Throw assertion_failed.
Proof.
  intros Hne Hall. destruct fragments as [|p fragments]; [contradiction |].
  inversion Hall as [|? ? Hp _]; subst.
  cbn [mapM]. unfold Packet.set_fragments_in_this_frame, assert.
  cbn [Packet.fragment_no_ Packet.fragments_in_this_frame_].
  destruct (Z.ltb_spec (Packet.fragment_no_ p) 0); [lia | reflexivity].
Qed.

Section SixteenBitLimit.

Variables (MAXIMUM_PAYLOAD connection_id frame_no time_to_next_frame : Z).
Variable whole_frame : list byte.

Let size : Z := Z.of_nat (length whole_frame).
Let count : nat := Z.to_nat 65536.

Hypothesis cap_positive : 1 <= MAXIMUM_PAYLOAD.
Hypothesis size_fits_size_t : size < 2 ^ 64.
Hypothesis count_least : 65535 * MAXIMUM_PAYLOAD < size.
Hypothesis count_enough : size <= 65536 * MAXIMUM_PAYLOAD.

(** The loop runs 65536 times; the counter has wrapped to 0 when it ends. *)
Lemma split_loop_65536 : forall (m k : nat) fuel next acc,
  (k + m = count)%nat -> (m < fuel)%nat ->
  next = (if (m =? 0)%nat then size else MAXIMUM_PAYLOAD * Z.of_nat k) ->
  exists new,
    FragmentedFrame.split_loop MAXIMUM_PAYLOAD fuel whole_frame connection_id frame_no
      (uint16 (Z.of_nat k)) next acc = Some (Ok (acc ++ new)) /\
    length new = m /\
    Forall (fun p => 0 <= Packet.fragment_no_ p) new.
Proof.
  assert (Hcount : Z.of_nat count = 65536) by (unfold count; lia).
  induction m as [|m IH]; intros k [|fuel] next acc Hkm Hfuel Hnext; try lia;
    cbn [FragmentedFrame.split_loop]; fold size; subst next.
  - cbn [Nat.eqb]. rewrite Z.ltb_irrefl. exists []. rewrite app_nil_r. repeat constructor.
  - cbn [Nat.eqb].
    assert (Hk : 0 <= Z.of_nat k <= 65535) by lia.
    assert (Hfirst : 0 <= MAXIMUM_PAYLOAD * Z.of_nat k < size) by nia.
    destruct (Z.ltb_spec (MAXIMUM_PAYLOAD * Z.of_nat k) size) as [_|]; [| lia].
    replace (uint16 (Z.of_nat k)) with (Z.of_nat k)
      by (unfold uint16; rewrite Z.mod_small; lia).
    unfold Packet.outgoing. fold size.
    assert (Hwrap : size_t (MAXIMUM_PAYLOAD * Z.of_nat k) = MAXIMUM_PAYLOAD * Z.of_nat k).
    { unfold size_t. apply Z.mod_small. lia. }
    rewrite Hwrap.
    set (len := Z.min (size - MAXIMUM_PAYLOAD * Z.of_nat k) MAXIMUM_PAYLOAD).
    assert (Hlen : 1 <= len /\ MAXIMUM_PAYLOAD * Z.of_nat k + len <= size) by (unfold len; lia).
    assert (Hnext : size_t (MAXIMUM_PAYLOAD * Z.of_nat k + len)
                    = MAXIMUM_PAYLOAD * Z.of_nat k + len).
    { unfold size_t. apply Z.mod_small. lia. }
    rewrite Hnext.
    unfold assert.
    destruct (Z.eqb_spec size 0); [lia |]. cbn [negb bind].
    destruct (Z.ltb_spec (MAXIMUM_PAYLOAD * Z.of_nat k) size); [| lia]. cbn [bind].
    destruct (Z.leb_spec (MAXIMUM_PAYLOAD * Z.of_nat k + len) size); [| lia]. cbn [bind].
    replace (Z.of_nat k + 1) with (Z.of_nat (S k)) by lia.
    assert (Hstep : MAXIMUM_PAYLOAD * Z.of_nat k + len
                    = (if (m =? 0)%nat then size else MAXIMUM_PAYLOAD * Z.of_nat (S k))).
    { unfold len. destruct (Nat.eqb_spec m 0) as [Hm | Hm].
      - rewrite Z.min_l by nia. lia.
      - rewrite Z.min_r by nia. lia. }
    match goal with
    | |- context [FragmentedFrame.split_loop _ _ _ _ _ _ _ (acc ++ [?p])] =>
      destruct (IH (S k) fuel (MAXIMUM_PAYLOAD * Z.of_nat k + len) (acc ++ [p])
                  ltac:(lia) ltac:(lia) Hstep) as [new [Hloop [Hnew Hall]]];
      rewrite Hloop; exists (p :: new)
    end.
    rewrite <- app_assoc. cbn [app].
    split; [reflexivity |]. split; [cbn [length]; now rewrite Hnew |].
    constructor; [cbn [Packet.fragment_no_]; lia | exact Hall].
Qed.

(** The count of 65536 does not fit [fragments_in_this_frame_]: it is stored
    as 0, and the assertion of [set_fragments_in_this_frame] fails. *)
Lemma outgoing_65536 fuel :
  (count < fuel)%nat ->
  FragmentedFrame.outgoing MAXIMUM_PAYLOAD fuel connection_id frame_no
    time_to_next_frame whole_frame = Some (Throw assertion_failed).
Proof.
  intros Hfuel.
  assert (Hcount : Z.of_nat count = 65536) by (unfold count; lia).
  destruct (split_loop_65536 count 0 fuel 0 []) as [new [Hloop [Hnew Hall]]];
    [reflexivity | exact Hfuel | |].
  { destruct (Nat.eqb_spec count 0); lia. }
  unfold FragmentedFrame.outgoing.
  change (uint16 (Z.of_nat 0)) with 0 in Hloop. rewrite Hloop. cbn [app bind].
  f_equal.
  destruct (FragmentedFrame.set_time_to_next_of_back time_to_next_frame new)
    as [r|e] eqn:Hback.
  - cbn [bind].
    destruct (set_time_to_next_of_back_headers _ _ _ Hback) as [Hheaders Hne].
    assert (Hr : length r = count).
    { rewrite <- (length_map header_of r), Hheaders, length_map. exact Hnew. }
    rewrite Hr, Hcount. change (uint16 65536) with 0.
    rewrite set_fragments_in_this_frame_zero; [reflexivity | |].
    + intros ->. cbn [length] in Hr. lia.
    + assert (Hnos : map Packet.fragment_no_ r = map Packet.fragment_no_ new).
      { apply (f_equal (map (fun h : bool * Z * Z * Z => snd h))) in Hheaders.
        now rewrite !map_map in Hheaders. }
      apply Forall_forall. intros p Hp.
      apply (in_map Packet.fragment_no_) in Hp. rewrite Hnos in Hp.
      apply in_map_iff in Hp. destruct Hp as [q [<- Hq]].
      rewrite Forall_forall in Hall. now apply Hall.
  - exfalso. unfold FragmentedFrame.set_time_to_next_of_back in Hback.
    destruct (rev new) eqn:Hrev; [| discriminate].
    apply (f_equal (@length _)) in Hrev. rewrite length_rev, Hnew in Hrev.
    cbn [length] in Hrev. lia.
Qed.

End SixteenBitLimit.

(** (X15) The limit of the outgoing constructor: a buffer that needs more than
    65535 fragments never yields a frame. If it needs exactly 65536, the
    count is stored in 16 bits as 0 and the assertion of
    [set_fragments_in_this_frame] fails; if it needs more, the loop never
    ends. *)
Theorem outgoing_beyond_16_bits
    (MAXIMUM_PAYLOAD connection_id frame_no time_to_next_frame : Z)
    (whole_frame : list byte)
    (Hcap : 1 <= MAXIMUM_PAYLOAD)
    (Hsize : Z.of_nat (length whole_frame) < 2 ^ 64)
    (Hmany : 65535 * MAXIMUM_PAYLOAD < Z.of_nat (length whole_frame)) :
  (forall fuel ff,
     FragmentedFrame.outgoing MAXIMUM_PAYLOAD fuel connection_id frame_no
       time_to_next_frame whole_frame <> Some (Ok ff)) /\
  (Z.of_nat (length whole_frame) <= 65536 * MAXIMUM_PAYLOAD ->
   forall fuel, (Z.to_nat 65536 < fuel)%nat ->
     FragmentedFrame.outgoing MAXIMUM_PAYLOAD fuel connection_id frame_no
       time_to_next_frame whole_frame = Some (Throw assertion_failed)) /\
  (65536 * MAXIMUM_PAYLOAD < Z.of_nat (length whole_frame) ->
   forall fuel,
     FragmentedFrame.outgoing MAXIMUM_PAYLOAD fuel connection_id frame_no
       time_to_next_frame whole_frame = None).
Proof.
  assert (Hexact : Z.of_nat (length whole_frame) <= 65536 * MAXIMUM_PAYLOAD ->
            forall fuel, (Z.to_nat 65536 < fuel)%nat ->
              FragmentedFrame.outgoing MAXIMUM_PAYLOAD fuel connection_id frame_no
                time_to_next_frame whole_frame = Some (Throw assertion_failed)).
  { intros Hle fuel Hfuel. now apply outgoing_65536. }
  assert (Hbeyond : 65536 * MAXIMUM_PAYLOAD < Z.of_nat (length whole_frame) ->
            forall fuel,
              FragmentedFrame.outgoing MAXIMUM_PAYLOAD fuel connection_id frame_no
                time_to_next_frame whole_frame = None).
  { intros Hgt fuel. apply outgoing_never_returns; lia. }
  split; [| split; assumption].
  intros fuel ff Hreturns.
  destruct (Z.le_gt_cases (Z.of_nat (length whole_frame)) (65536 * MAXIMUM_PAYLOAD))
    as [Hle | Hgt].
  - apply (outgoing_more_fuel _ _ (S (Z.to_nat 65536))) in Hreturns.
    rewrite Hexact in Hreturns by (assumption || lia). discriminate.
  - rewrite Hbeyond in Hreturns by assumption. discriminate.
Qed.

Lemma outgoing_beyond_16_bits_size :
  Z.of_nat (length (repeat Byte.x00 (Z.to_nat 65536))) = 65536.
Proof. rewrite repeat_length. apply Z2Nat.id. lia. Qed.

Lemma outgoing_beyond_16_bits_example :
  (forall fuel ff,
     FragmentedFrame.outgoing 1 fuel 0 0 0 (repeat Byte.x00 (Z.to_nat 65536))
     <> Some (Ok ff)) /\
  (Z.of_nat (length (repeat Byte.x00 (Z.to_nat 65536))) <= 65536 * 1 ->
   forall fuel, (Z.to_nat 65536 < fuel)%nat ->
     FragmentedFrame.outgoing 1 fuel 0 0 0 (repeat Byte.x00 (Z.to_nat 65536))
     = Some (Throw assertion_failed)) /\
  (65536 * 1 < Z.of_nat (length (repeat Byte.x00 (Z.to_nat 65536))) ->
   forall fuel,
     FragmentedFrame.outgoing 1 fuel 0 0 0 (repeat Byte.x00 (Z.to_nat 65536)) = None).
Proof.
  apply (outgoing_beyond_16_bits 1 0 0 0 (repeat Byte.x00 (Z.to_nat 65536)));
    rewrite ?outgoing_beyond_16_bits_size; lia.
Defined.

(** ** Any sequence of arrivals *)

Lemma firstn_seq_0 (g n : nat) : (g <= n)%nat -> firstn g (seq 0 n) = seq 0 g.
Proof.
  intros Hg. replace n with (g + (n - g))%nat by lia.
  rewrite seq_app. apply firstn_app_l. now rewrite length_seq.
Qed.

Section Arrivals.

(** The [n] fragments [F 0 .. F (n-1)] of one frame. *)
Variables (connection_id frame_no : Z) (n : nat) (F : nat -> Packet.t).

Hypothesis n_fits_uint16 : Z.of_nat n < 2 ^ 16.
Hypothesis F_valid : forall k, (k < n)%nat -> Packet.valid_ (F k) = true.
Hypothesis F_connection_id : forall k, (k < n)%nat -> Packet.connection_id_ (F k) = connection_id.
Hypothesis F_frame_no : forall k, (k < n)%nat -> Packet.frame_no_ (F k) = frame_no.
Hypothesis F_fragment_no : forall k, (k < n)%nat -> Packet.fragment_no_ (F k) = Z.of_nat k.
Hypothesis F_count : forall k, (k < n)%nat -> Packet.fragments_in_this_frame_ (F k) = Z.of_nat n.

(** The incoming frame in which exactly the fragments of [got] have been
    stored. *)
Let slots_of (got : nat -> bool) : list Packet.t :=
  map (fun k => if got k then F k else Packet.empty) (seq 0 n).

Let state (got : nat -> bool) : FragmentedFrame.t :=
  {| FragmentedFrame.connection_id_ := connection_id;
     FragmentedFrame.frame_no_ := frame_no;
     FragmentedFrame.fragments_in_this_frame_ := Z.of_nat n;
     FragmentedFrame.fragments_ := slots_of got;
     FragmentedFrame.remaining_fragments_ := count_invalid (slots_of got) |}.

Lemma slots_of_ext got got' :
  (forall k, (k < n)%nat -> got k = got' k) -> slots_of got = slots_of got'.
Proof.
  intros H. apply map_ext_in. intros k Hk. apply in_seq in Hk. now rewrite H by lia.
Qed.

Lemma state_ext got got' :
  (forall k, (k < n)%nat -> got k = got' k) -> state got = state got'.
Proof. intros H. unfold state. now rewrite (slots_of_ext got got' H). Qed.

Lemma nth_slots_of got k :
  (k < n)%nat -> nth_error (slots_of got) k = Some (if got k then F k else Packet.empty).
Proof.
  intros Hk. unfold slots_of. rewrite nth_error_map_seq.
  destruct (Nat.ltb_spec k n); [reflexivity | lia].
Qed.

Lemma length_slots_of got : length (slots_of got) = n.
Proof. unfold slots_of. now rewrite length_map, length_seq. Qed.

Lemma add_to_state got j :
  (j < n)%nat ->
  FragmentedFrame.add_packet (F j) (state got)
  = (Ok tt, state (fun k => got k || (k =? j)%nat)).
Proof.
  intros Hj.
  assert (Hidx : Z.to_nat (Packet.fragment_no_ (F j)) = j).
  { rewrite F_fragment_no by assumption. apply Nat2Z.id. }
  assert (Hcheck : FragmentedFrame.sanity_check (state got) (F j) = Ok tt).
  { apply sanity_check_ok. cbn [state FragmentedFrame.connection_id_
      FragmentedFrame.frame_no_ FragmentedFrame.fragments_in_this_frame_].
    rewrite F_connection_id, F_count, F_frame_no, F_fragment_no by assumption. lia. }
  pose proof (nth_slots_of got j Hj) as Hslot.
  destruct (add_packetP (F j) (state got))
    as [e Hs | Hs Hnone | target Hs Hsome Ht | target Hs Hsome Ht];
    rewrite ?Hidx in *; cbn [state FragmentedFrame.fragments_] in *; try congruence.
  - f_equal. apply state_ext. intros k Hk.
    destruct (Nat.eqb_spec k j) as [-> |]; [| now rewrite orb_false_r].
    rewrite Hslot in Hsome. inversion Hsome as [Htarget].
    destruct (got j); [reflexivity |]. subst target. discriminate.
  - f_equal.
    assert (Hgot : got j = false).
    { rewrite Hslot in Hsome. inversion Hsome as [Htarget].
      destruct (got j); [| reflexivity].
      subst target. rewrite F_valid in Ht by assumption. discriminate. }
    assert (Hnew : replace_nth j (slots_of got) (F j)
                   = slots_of (fun k => got k || (k =? j)%nat)).
    { apply nth_error_ext. intros k.
      destruct (Nat.ltb_spec k n) as [Hk | Hk].
      - rewrite (nth_slots_of _ k Hk).
        destruct (Nat.eqb_spec k j) as [-> | Hne].
        + rewrite nth_error_replace_nth_same by (rewrite length_slots_of; lia).
          now rewrite orb_true_r.
        + rewrite nth_error_replace_nth_other by congruence.
          now rewrite (nth_slots_of _ k Hk), orb_false_r.
      - transitivity (@None Packet.t); [| symmetry];
          apply nth_error_None; rewrite ?replace_nth_length, length_slots_of; lia. }
    unfold FragmentedFrame.assign_slot, FragmentedFrame.decrement_remaining, state.
    cbn [FragmentedFrame.connection_id_ FragmentedFrame.frame_no_
         FragmentedFrame.fragments_in_this_frame_ FragmentedFrame.fragments_
         FragmentedFrame.remaining_fragments_].
    rewrite Hidx, Hnew. f_equal.
    rewrite <- Hnew.
    rewrite (count_invalid_replace_nth _ _ _ (F j) Hsome Ht (F_valid j Hj)).
    pose proof (count_invalid_range (slots_of got)) as Hrange.
    pose proof (count_invalid_range (replace_nth j (slots_of got) (F j))) as Hrange'.
    rewrite (count_invalid_replace_nth _ _ _ (F j) Hsome Ht (F_valid j Hj)) in Hrange'.
    rewrite length_slots_of in Hrange.
    unfold uint32. apply Z.mod_small. lia.
Qed.

Lemma arrived_cons j arrivals k :
  (j < n)%nat -> arrived (F j :: arrivals) k = ((k =? j)%nat || arrived arrivals k).
Proof.
  intros Hj. unfold arrived. cbn [existsb]. rewrite F_fragment_no by assumption.
  f_equal. destruct (Nat.eqb_spec k j), (Z.eqb_spec (Z.of_nat j) (Z.of_nat k));
    try reflexivity; lia.
Qed.

Lemma add_all_to_state arrivals : forall got,
  (forall p, In p arrivals -> exists j, (j < n)%nat /\ p = F j) ->
  add_packets arrivals (state got)
  = (Ok tt, state (fun k => got k || arrived arrivals k)).
Proof.
  induction arrivals as [|p arrivals IH]; intros got Hfrom.
  - cbn [add_packets]. unfold ret. f_equal. apply state_ext.
    intros k _. now rewrite orb_false_r.
  - destruct (Hfrom p (or_introl eq_refl)) as [j [Hj ->]].
    cbn [add_packets]. unfold bindM. rewrite (add_to_state got j Hj).
    rewrite IH by (intros q Hq; apply Hfrom; now right).
    f_equal. apply state_ext. intros k _.
    now rewrite (arrived_cons j arrivals k Hj), orb_assoc.
Qed.

Lemma found_state j :
  (j < n)%nat ->
  FragmentedFrame.incoming connection_id (F j) = Ok (state (fun k => (k =? j)%nat)).
Proof.
  intros Hj. unfold FragmentedFrame.incoming.
  rewrite F_count, F_frame_no, Nat2Z.id by assumption.
  assert (Hempty : {| FragmentedFrame.connection_id_ := connection_id;
                      FragmentedFrame.frame_no_ := frame_no;
                      FragmentedFrame.fragments_in_this_frame_ := Z.of_nat n;
                      FragmentedFrame.fragments_ := repeat Packet.empty n;
                      FragmentedFrame.remaining_fragments_ := Z.of_nat n |}
                   = state (fun _ => false)).
  { unfold state, slots_of. rewrite map_const, length_seq.
    now rewrite count_invalid_repeat_empty. }
  rewrite Hempty. unfold bindM at 1, read at 1.
  assert (Hcheck : FragmentedFrame.sanity_check (state (fun _ => false)) (F j) = Ok tt).
  { apply sanity_check_ok. cbn [state FragmentedFrame.connection_id_
      FragmentedFrame.frame_no_ FragmentedFrame.fragments_in_this_frame_].
    rewrite F_connection_id, F_count, F_frame_no, F_fragment_no by assumption. lia. }
  rewrite Hcheck, (add_to_state _ j Hj). reflexivity.
Qed.

(** The frame a receiver holds after any sequence of fragments of the frame. *)
Lemma receive_state first others :
  (forall p, In p (first :: others) -> exists j, (j < n)%nat /\ p = F j) ->
  receive connection_id first others = Ok (state (arrived (first :: others))).
Proof.
  intros Hfrom. destruct (Hfrom first (or_introl eq_refl)) as [j [Hj ->]].
  unfold receive. rewrite (found_state j Hj). cbn [bind].
  rewrite add_all_to_state by (intros q Hq; apply Hfrom; now right).
  f_equal. apply state_ext. intros k _. now rewrite (arrived_cons j others k Hj).
Qed.

Lemma state_complete got :
  FragmentedFrame.complete (state got) = true <->
  forall k, (k < n)%nat -> got k = true.
Proof.
  unfold FragmentedFrame.complete. cbn [state FragmentedFrame.remaining_fragments_].
  rewrite Z.eqb_eq. split.
  - intros H k Hk. apply count_invalid_zero in H. rewrite Forall_forall in H.
    pose proof (nth_slots_of got k Hk) as Hslot.
    specialize (H _ (nth_error_In _ _ Hslot)).
    destruct (got k); [reflexivity | discriminate].
  - intros H. apply count_invalid_all_valid, Forall_forall.
    intros p Hp. apply in_map_iff in Hp. destruct Hp as [k [<- Hk]].
    apply in_seq in Hk. rewrite H by lia. apply F_valid. lia.
Qed.

Lemma state_all got :
  (forall k, (k < n)%nat -> got k = true) ->
  state got = {| FragmentedFrame.connection_id_ := connection_id;
                 FragmentedFrame.frame_no_ := frame_no;
                 FragmentedFrame.fragments_in_this_frame_ := Z.of_nat n;
                 FragmentedFrame.fragments_ := map F (seq 0 n);
                 FragmentedFrame.remaining_fragments_ := 0 |}.
Proof.
  intros H.
  assert (Hslots : slots_of got = map F (seq 0 n)).
  { apply map_ext_in. intros k Hk. apply in_seq in Hk. now rewrite H by lia. }
  unfold state. rewrite Hslots. f_equal.
  apply count_invalid_all_valid, Forall_forall.
  intros p Hp. apply in_map_iff in Hp. destruct Hp as [k [<- Hk]].
  apply in_seq in Hk. apply F_valid. lia.
Qed.

Lemma state_partial_frame got g :
  (g <= n)%nat ->
  (forall k, (k < g)%nat -> got k = true) ->
  ((g < n)%nat -> got g = false) ->
  FragmentedFrame.partial_frame (state got) = payloads (map F (seq 0 g)).
Proof.
  intros Hg Hbefore Hgap.
  assert (Hprefix : firstn g (slots_of got) = map F (seq 0 g)).
  { unfold slots_of. rewrite firstn_map, firstn_seq_0 by exact Hg.
    apply map_ext_in. intros k Hk. apply in_seq in Hk. now rewrite Hbefore by lia. }
  unfold FragmentedFrame.partial_frame. cbn [state FragmentedFrame.fragments_].
  rewrite (partial_frame_loop_prefix _ g []).
  - now rewrite Hprefix.
  - rewrite Hprefix. apply Forall_forall. intros p Hp. apply in_map_iff in Hp.
    destruct Hp as [k [<- Hk]]. apply in_seq in Hk. apply F_valid. lia.
  - intros p Hp.
    assert (Hlt : (g < n)%nat).
    { rewrite <- (length_slots_of got). apply nth_error_Some. congruence. }
    rewrite (nth_slots_of got g Hlt), (Hgap Hlt) in Hp. now inversion Hp.
Qed.

End Arrivals.

Lemma payloads_app l1 l2 : payloads (l1 ++ l2) = payloads l1 ++ payloads l2.
Proof. unfold payloads. now rewrite map_app, concat_app. Qed.

Lemma payloads_prefix (MAXIMUM_PAYLOAD connection_id frame_no time_to_next_frame : Z)
    (whole_frame : list byte) (n g : nat) :
  1 <= MAXIMUM_PAYLOAD ->
  MAXIMUM_PAYLOAD * (Z.of_nat n - 1) < Z.of_nat (length whole_frame) ->
  Z.of_nat (length whole_frame) <= MAXIMUM_PAYLOAD * Z.of_nat n ->
  (g <= n)%nat ->
  payloads (map (fragment_of MAXIMUM_PAYLOAD connection_id frame_no time_to_next_frame
                   whole_frame n) (seq 0 g))
  = firstn (Z.to_nat (MAXIMUM_PAYLOAD * Z.of_nat g)) whole_frame.
Proof.
  intros Hcap Hleast Henough Hg.
  pose proof (payloads_of_fragments MAXIMUM_PAYLOAD connection_id frame_no
                time_to_next_frame whole_frame n Hcap Hleast Henough) as Hall.
  replace n with (g + (n - g))%nat in Hall at 2 by lia.
  rewrite seq_app, map_app, payloads_app in Hall. cbn [Nat.add] in Hall.
  rewrite (payloads_from MAXIMUM_PAYLOAD connection_id frame_no time_to_next_frame
             whole_frame n Hcap Hleast Henough (n - g) g) in Hall by lia.
  apply (app_inv_tail (skipn (Z.to_nat (MAXIMUM_PAYLOAD * Z.of_nat g)) whole_frame)).
  now rewrite firstn_skipn.
Qed.

(** (X16) Duplicates do no harm: when every packet that arrives is a fragment of
    the sender's outgoing frame and every fragment arrives at least once, in
    any order and any number of times, the receiver ends with exactly the
    sender's frame (the same identity, slots and remaining count), whose
    [frame()] is the sender's buffer. *)
Theorem reassembly_with_duplicates
    (MAXIMUM_PAYLOAD connection_id frame_no time_to_next_frame : Z)
    (whole_frame : list byte) (fuel : nat) (out : FragmentedFrame.t)
    (first : Packet.t) (others : list Packet.t)
    (Hnot_empty : whole_frame <> [])
    (Hcap : 1 <= MAXIMUM_PAYLOAD)
    (Hsize : Z.of_nat (length whole_frame) < 2 ^ 64)
    (Hcount : Z.of_nat (length whole_frame) <= 65535 * MAXIMUM_PAYLOAD)
    (Hreturns : FragmentedFrame.outgoing MAXIMUM_PAYLOAD fuel connection_id frame_no
                  time_to_next_frame whole_frame = Some (Ok out))
    (Hfrom : forall p, In p (first :: others) -> In p (FragmentedFrame.fragments_ out))
    (Hall : forall p, In p (FragmentedFrame.fragments_ out) -> In p (first :: others)) :
  receive connection_id first others = Ok out /\
  FragmentedFrame.frame out = Ok whole_frame.
Proof.
  set (n := Z.to_nat (ceil_div (Z.of_nat (length whole_frame)) MAXIMUM_PAYLOAD)).
  set (final := fragment_of MAXIMUM_PAYLOAD connection_id frame_no time_to_next_frame
                  whole_frame n).
  destruct (outgoing_count_bounds MAXIMUM_PAYLOAD connection_id frame_no
              time_to_next_frame whole_frame Hnot_empty Hcap Hsize Hcount)
    as [[Hleast Henough] [Hpos Hfits]].
  fold n in Hleast, Henough, Hpos, Hfits.
  pose proof (outgoing_closed_form _ _ _ _ _ _ _ Hnot_empty Hcap Hsize Hcount Hreturns)
    as Hout. fold n in Hout. fold final in Hout.
  assert (Hslots : FragmentedFrame.fragments_ out = map final (seq 0 n))
    by (now rewrite Hout).
  rewrite Hslots in Hfrom, Hall.
  split.
  - rewrite (receive_state connection_id frame_no n final); try reflexivity; try assumption.
    + f_equal. rewrite Hout. apply state_all; try reflexivity.
      intros k Hk. unfold arrived. apply existsb_exists.
      exists (final k). split; [| apply Z.eqb_refl].
      apply Hall, in_map, in_seq. lia.
    + intros p Hp. apply Hfrom, in_map_iff in Hp. destruct Hp as [k [<- Hk]].
      apply in_seq in Hk. exists k. split; [lia | reflexivity].
  - rewrite frame_complete by (now rewrite Hout).
    f_equal. rewrite Hslots. now apply payloads_of_fragments.
Qed.

Lemma reassembly_with_duplicates_example :
  receive 7 (example_fragment 1)
    [example_fragment 2; example_fragment 1; example_fragment 0; example_fragment 2]
  = Ok example_outgoing /\
  FragmentedFrame.frame example_outgoing = Ok example_buffer.
Proof.
  apply (reassembly_with_duplicates 4 7 9 55 example_buffer 4 example_outgoing);
    [discriminate | lia | simpl; lia | simpl; lia | reflexivity | |];
    cbn [FragmentedFrame.fragments_ example_outgoing]; intros p Hp; simpl in *; tauto.
Defined.

(** (X17) Any arrivals: when every packet that arrives is a fragment of the
    sender's outgoing frame (in any order, with or without duplicates, all of
    them or not), the receiver builds a frame; it is complete exactly when
    every fragment has arrived, [frame()] refuses it until then, and
    [partial_frame()] is the first [g * MAXIMUM_PAYLOAD] bytes of the sender's
    buffer, where [g] is the first fragment that has not arrived (all of the
    buffer when none is missing). *)
Theorem partial_reassembly
    (MAXIMUM_PAYLOAD connection_id frame_no time_to_next_frame : Z)
    (whole_frame : list byte) (fuel : nat) (out : FragmentedFrame.t)
    (first : Packet.t) (others : list Packet.t)
    (Hnot_empty : whole_frame <> [])
    (Hcap : 1 <= MAXIMUM_PAYLOAD)
    (Hsize : Z.of_nat (length whole_frame) < 2 ^ 64)
    (Hcount : Z.of_nat (length whole_frame) <= 65535 * MAXIMUM_PAYLOAD)
    (Hreturns : FragmentedFrame.outgoing MAXIMUM_PAYLOAD fuel connection_id frame_no
                  time_to_next_frame whole_frame = Some (Ok out))
    (Hfrom : forall p, In p (first :: others) -> In p (FragmentedFrame.fragments_ out)) :
  exists ff,
    receive connection_id first others = Ok ff /\
    (FragmentedFrame.complete ff = true <->
     forall k, (k < length (FragmentedFrame.fragments_ out))%nat ->
               arrived (first :: others) k = true) /\
    (FragmentedFrame.complete ff = false ->
     FragmentedFrame.frame ff = Throw frame_unfinished) /\
    forall g,
      (g <= length (FragmentedFrame.fragments_ out))%nat ->
      (forall k, (k < g)%nat -> arrived (first :: others) k = true) ->
      ((g < length (FragmentedFrame.fragments_ out))%nat ->
       arrived (first :: others) g = false) ->
      FragmentedFrame.partial_frame ff
      = firstn (Z.to_nat (MAXIMUM_PAYLOAD * Z.of_nat g)) whole_frame.
Proof.
  set (n := Z.to_nat (ceil_div (Z.of_nat (length whole_frame)) MAXIMUM_PAYLOAD)).
  set (final := fragment_of MAXIMUM_PAYLOAD connection_id frame_no time_to_next_frame
                  whole_frame n).
  destruct (outgoing_count_bounds MAXIMUM_PAYLOAD connection_id frame_no
              time_to_next_frame whole_frame Hnot_empty Hcap Hsize Hcount)
    as [[Hleast Henough] [Hpos Hfits]].
  fold n in Hleast, Henough, Hpos, Hfits.
  pose proof (outgoing_closed_form _ _ _ _ _ _ _ Hnot_empty Hcap Hsize Hcount Hreturns)
    as Hout. fold n in Hout. fold final in Hout.
  assert (Hslots : FragmentedFrame.fragments_ out = map final (seq 0 n))
    by (now rewrite Hout).
  rewrite Hslots in Hfrom |- *. rewrite length_map, length_seq.
  eexists. split; [| split; [| split]].
  - apply (receive_state connection_id frame_no n final); try reflexivity; try assumption.
    intros p Hp. apply Hfrom, in_map_iff in Hp. destruct Hp as [k [<- Hk]].
    apply in_seq in Hk. exists k. split; [lia | reflexivity].
  - apply state_complete; reflexivity.
  - intros Hincomplete. unfold FragmentedFrame.frame. now rewrite Hincomplete.
  - intros g Hg Hbefore Hgap.
    rewrite (state_partial_frame connection_id frame_no n final) with (g := g);
      try reflexivity; try assumption.
    now apply payloads_prefix.
Qed.

Lemma partial_reassembly_example :
  exists ff,
    receive 7 (example_fragment 2) [example_fragment 0] = Ok ff /\
    (FragmentedFrame.complete ff = true <->
     forall k, (k < length (FragmentedFrame.fragments_ example_outgoing))%nat ->
               arrived [example_fragment 2; example_fragment 0] k = true) /\
    (FragmentedFrame.complete ff = false ->
     FragmentedFrame.frame ff = Throw frame_unfinished) /\
    forall g,
      (g <= length (FragmentedFrame.fragments_ example_outgoing))%nat ->
      (forall k, (k < g)%nat -> arrived [example_fragment 2; example_fragment 0] k = true) ->
      ((g < length (FragmentedFrame.fragments_ example_outgoing))%nat ->
       arrived [example_fragment 2; example_fragment 0] g = false) ->
      FragmentedFrame.partial_frame ff
      = firstn (Z.to_nat (4 * Z.of_nat g)) example_buffer.
Proof.
  apply (partial_reassembly 4 7 9 55 example_buffer 4 example_outgoing);
    [discriminate | lia | simpl; lia | simpl; lia | reflexivity |];
    cbn [FragmentedFrame.fragments_ example_outgoing]; intros p Hp; simpl in *; tauto.
Defined.

(** ** The bytes on the wire *)

(** (X18) The wire format as [to_string] writes it. A packet whose
    [fragments_in_this_frame_] is 0 (a default-constructed one, or an outgoing
    one before the count is set) fails the assertion. Any other packet, with
    members in the range of their types, serialises to 14 bytes of header and
    the payload: connection_id at offset 0 (2 bytes), frame_no at 2 (4),
    fragment_no at 6 (2), fragments_in_this_frame at 8 (2), time_to_next at 10
    (4), each little-endian. An ack packet serialises to 12 bytes:
    connection_id at 0 (2), frame_no at 2 (4), fragment_no at 6 (2), avg_delay
    at 8 (4). *)
Theorem to_string_wire_format (p : Packet.t) (a : AckPacket.t)
    (Htyped : Packet.well_typed p)
    (Hack : AckPacket.well_typed a) :
  (Packet.fragments_in_this_frame_ p = 0 -> Packet.to_string p = Throw assertion_failed) /\
  (0 < Packet.fragments_in_this_frame_ p ->
   exists datagram,
     Packet.to_string p = Ok datagram /\
     length datagram = (14 + length (Packet.payload_ p))%nat /\
     le_at 0 2 datagram = Packet.connection_id_ p /\
     le_at 2 4 datagram = Packet.frame_no_ p /\
     le_at 6 2 datagram = Packet.fragment_no_ p /\
     le_at 8 2 datagram = Packet.fragments_in_this_frame_ p /\
     le_at 10 4 datagram = Packet.time_to_next_ p /\
     skipn 14 datagram = Packet.payload_ p) /\
  length (AckPacket.to_string a) = 12%nat /\
  le_at 0 2 (AckPacket.to_string a) = AckPacket.connection_id_ a /\
  le_at 2 4 (AckPacket.to_string a) = AckPacket.frame_no_ a /\
  le_at 6 2 (AckPacket.to_string a) = AckPacket.fragment_no_ a /\
  le_at 8 4 (AckPacket.to_string a) = AckPacket.avg_delay_ a.
Proof.
  destruct Htyped as [Hc [Hf [Hn [Ht Hx]]]].
  split; [| split].
  - intros H0. unfold Packet.to_string, assert. now rewrite H0.
  - intros Hpos. unfold Packet.to_string, assert.
    apply Z.ltb_lt in Hpos. rewrite Hpos. cbn [bind].
    eexists. split; [reflexivity |].
    split; [apply wire_length |].
    pose proof (wire_parsed (Packet.connection_id_ p) (Packet.frame_no_ p)
                  (Packet.fragment_no_ p) (Packet.fragments_in_this_frame_ p)
                  (Packet.time_to_next_ p) (Packet.payload_ p) Hc Hf Hn Ht Hx) as Hparsed.
    split; [exact (f_equal Packet.connection_id_ Hparsed) |].
    split; [exact (f_equal Packet.frame_no_ Hparsed) |].
    split; [exact (f_equal Packet.fragment_no_ Hparsed) |].
    split; [exact (f_equal Packet.fragments_in_this_frame_ Hparsed) |].
    split; [exact (f_equal Packet.time_to_next_ Hparsed) |].
    exact (f_equal Packet.payload_ Hparsed).
  - destruct a as [c f n d]. destruct Hack as [Hac [Haf [Han Had]]].
    unfold AckPacket.to_string. cbn [AckPacket.connection_id_
      AckPacket.frame_no_ AckPacket.fragment_no_ AckPacket.avg_delay_] in *.
    unfold PacketUtils.put_header_field16, PacketUtils.put_header_field32.
    split; [now rewrite !length_app, !length_le_split |].
    rewrite <- (app_nil_r (le_split 4 d)).
    split; [| split; [| split]].
    + rewrite <- (uint16_small c) at 2 by assumption.
      exact (le_at_app 0 2 [] _ c eq_refl).
    + rewrite le_at_app by (now rewrite length_le_split). now apply uint32_small.
    + rewrite (app_assoc (le_split 2 c)).
      rewrite le_at_app by (now rewrite length_app, !length_le_split).
      now apply uint16_small.
    + rewrite (app_assoc (le_split 2 c)), (app_assoc (_ ++ _)).
      rewrite le_at_app by (now rewrite !length_app, !length_le_split).
      now apply uint32_small.
Qed.

Lemma to_string_wire_format_example :
  (Packet.fragments_in_this_frame_ (example_fragment 2) = 0 ->
   Packet.to_string (example_fragment 2) = Throw assertion_failed) /\
  (0 < Packet.fragments_in_this_frame_ (example_fragment 2) ->
   exists datagram,
     Packet.to_string (example_fragment 2) = Ok datagram /\
     length datagram = (14 + length (Packet.payload_ (example_fragment 2)))%nat /\
     le_at 0 2 datagram = Packet.connection_id_ (example_fragment 2) /\
     le_at 2 4 datagram = Packet.frame_no_ (example_fragment 2) /\
     le_at 6 2 datagram = Packet.fragment_no_ (example_fragment 2) /\
     le_at 8 2 datagram = Packet.fragments_in_this_frame_ (example_fragment 2) /\
     le_at 10 4 datagram = Packet.time_to_next_ (example_fragment 2) /\
     skipn 14 datagram = Packet.payload_ (example_fragment 2)) /\
  length (AckPacket.to_string example_ack) = 12%nat /\
  le_at 0 2 (AckPacket.to_string example_ack) = AckPacket.connection_id_ example_ack /\
  le_at 2 4 (AckPacket.to_string example_ack) = AckPacket.frame_no_ example_ack /\
  le_at 6 2 (AckPacket.to_string example_ack) = AckPacket.fragment_no_ example_ack /\
  le_at 8 4 (AckPacket.to_string example_ack) = AckPacket.avg_delay_ example_ack.
Proof.
  apply (to_string_wire_format (example_fragment 2) example_ack).
  - unfold Packet.well_typed, is_uint16, is_uint32. simpl. lia.
  - unfold AckPacket.well_typed, is_uint16, is_uint32. simpl. lia.
Defined.

(** ** send of a frame that is not complete *)




